(** * The snake simulation of [game.js]

    A shallow embedding of the game logic of [src/game.js]: the module-level
    game state, food placement, the one-slot input queue, the simulation step
    [tick], the restart [resetGame] and the fixed-timestep driver [animate].

    Conventions of the embedding.
    - JavaScript integers that the game computes with (cell coordinates,
      score, speed) are [Z]; they stay far below 2^53, where doubles are exact.
    - Times (the frame timestamp, [lastTime], [accumulator], [stepInterval])
      are IEEE 754 doubles, the [spec_float] of the standard library at
      precision 53; the numbers of the view are exact rationals [Q].
    - The scene graph, the meshes and the HUD text are derived from the game
      state and are left out; the centre message is kept because it tells a
      win from a loss.
    - [Math.random] is an oracle: the section variable [floorRandomTimes]
      gives, for the n-th call of [Math.random] since page load, the value of
      [Math.floor(Math.random() * k)]; the game state counts the calls.
    - A JavaScript [TypeError] (reading a field of [undefined] or [null]) is
      the outcome [TypeError]; the state it leaves behind is not modelled. *)

From Stdlib Require Import ZArith QArith List String Bool Lia Lqa SpecFloat.
Import ListNotations.
Local Open Scope Z_scope.

(** ** Outcomes of a handler *)

Inductive result (A : Type) : Type :=
| Ok (a : A)
| TypeError.
Arguments Ok {A} a.
Arguments TypeError {A}.

(** ** Game constants (lines 12-18) *)

Definition GRID_CELLS : Z := 24.
Definition START_LENGTH : Z := 4.
Definition BASE_SPEED : Z := 6.
Definition MAX_SPEED : Z := 14.

(** ** State *)

(** A cell [{ x, y }]; directions are cells too. *)
Record Cell : Type := mkCell { x : Z; y : Z }.

(** The "Game state" block (lines 30-39), the centre message of the page and
    the number of [Math.random] calls made so far. *)
Record Game : Type := mkGame {
  snake : list Cell;             (* tail first, head last *)
  direction : Cell;
  inputQueue : list Cell;
  food : option Cell;            (* [null] until the first placeFood *)
  isPaused : bool;
  isGameOver : bool;
  score : Z;
  highScore : Z;
  movesPerSecond : Z;
  messageTitle : string;         (* centerMsgTitle.textContent *)
  messageHidden : bool;          (* centerMsg has class 'hidden' *)
  randomCalls : nat
}.

(** ** Numbers of the driver

    The times of [animate] are JavaScript numbers that are not integers:
    IEEE 754 binary64, here the [spec_float] of the standard library with
    its correctly rounded operations (precision 53, exponent bound 1024). *)

(** An integer as a number; exact below 2^53. *)
Definition ofInt (z : Z) : spec_float := binary_normalize 53 1024 z 0 false.

Definition numAdd : spec_float -> spec_float -> spec_float := SFadd 53 1024.
Definition numSub : spec_float -> spec_float -> spec_float := SFsub 53 1024.
Definition numDiv : spec_float -> spec_float -> spec_float := SFdiv 53 1024.

(** [a >= b] and [a < b]; both are false when an operand is NaN. *)
Definition numGe (a b : spec_float) : bool := SFleb b a.
Definition numLt (a b : spec_float) : bool := SFltb a b.



(** [a || 0] on a number: NaN, +0 and -0 are falsy. *)
Definition orZero (a : spec_float) : spec_float :=
  match a with
  | S754_nan | S754_zero _ => S754_zero false
  | _ => a
  end.

(** [Math.min(a, b)]: NaN if either is, and -0 below +0. *)
Definition mathMin (a b : spec_float) : spec_float :=
  match SFcompare a b with
  | None => S754_nan
  | Some Lt => a
  | Some Gt => b
  | Some Eq => match a with S754_zero true => a | _ => b end
  end.

(** The literal [0.1]: the double nearest to 1/10. *)
Definition tenth : spec_float := numDiv (ofInt 1) (ofInt 10).

(** The "Time" block (lines 41-43). *)
Record Time : Type := mkTime { lastTime : spec_float; accumulator : spec_float }.

(** The state at page load, before the bootstrap calls [resetGame]; [hs] is
    the high score read from local storage. *)
Definition boot (hs : Z) : Game :=
  {| snake := []; direction := {| x := 1; y := 0 |}; inputQueue := [];
     food := None; isPaused := false; isGameOver := false; score := 0;
     highScore := hs; movesPerSecond := BASE_SPEED;
     messageTitle := EmptyString; messageHidden := true; randomCalls := 0 |}.

(** Assignments to one global. *)
Definition set_snake (v : list Cell) (g : Game) : Game :=
  mkGame v (direction g) (inputQueue g) (food g) (isPaused g) (isGameOver g)
         (score g) (highScore g) (movesPerSecond g) (messageTitle g)
         (messageHidden g) (randomCalls g).
Definition set_direction (v : Cell) (g : Game) : Game :=
  mkGame (snake g) v (inputQueue g) (food g) (isPaused g) (isGameOver g)
         (score g) (highScore g) (movesPerSecond g) (messageTitle g)
         (messageHidden g) (randomCalls g).
Definition set_inputQueue (v : list Cell) (g : Game) : Game :=
  mkGame (snake g) (direction g) v (food g) (isPaused g) (isGameOver g)
         (score g) (highScore g) (movesPerSecond g) (messageTitle g)
         (messageHidden g) (randomCalls g).
Definition set_food (v : option Cell) (g : Game) : Game :=
  mkGame (snake g) (direction g) (inputQueue g) v (isPaused g) (isGameOver g)
         (score g) (highScore g) (movesPerSecond g) (messageTitle g)
         (messageHidden g) (randomCalls g).
Definition set_isPaused (v : bool) (g : Game) : Game :=
  mkGame (snake g) (direction g) (inputQueue g) (food g) v (isGameOver g)
         (score g) (highScore g) (movesPerSecond g) (messageTitle g)
         (messageHidden g) (randomCalls g).
Definition set_isGameOver (v : bool) (g : Game) : Game :=
  mkGame (snake g) (direction g) (inputQueue g) (food g) (isPaused g) v
         (score g) (highScore g) (movesPerSecond g) (messageTitle g)
         (messageHidden g) (randomCalls g).
Definition set_score (v : Z) (g : Game) : Game :=
  mkGame (snake g) (direction g) (inputQueue g) (food g) (isPaused g)
         (isGameOver g) v (highScore g) (movesPerSecond g) (messageTitle g)
         (messageHidden g) (randomCalls g).
Definition set_highScore (v : Z) (g : Game) : Game :=
  mkGame (snake g) (direction g) (inputQueue g) (food g) (isPaused g)
         (isGameOver g) (score g) v (movesPerSecond g) (messageTitle g)
         (messageHidden g) (randomCalls g).
Definition set_movesPerSecond (v : Z) (g : Game) : Game :=
  mkGame (snake g) (direction g) (inputQueue g) (food g) (isPaused g)
         (isGameOver g) (score g) (highScore g) v (messageTitle g)
         (messageHidden g) (randomCalls g).
Definition set_randomCalls (v : nat) (g : Game) : Game :=
  mkGame (snake g) (direction g) (inputQueue g) (food g) (isPaused g)
         (isGameOver g) (score g) (highScore g) (movesPerSecond g)
         (messageTitle g) (messageHidden g) v.

(** ** Utilities (lines 46-63) *)

Definition setHighScore (value : Z) (g : Game) : Game :=
  set_highScore (Z.max (highScore g) value) g.

Definition showCenterMessage (text : string) (g : Game) : Game :=
  mkGame (snake g) (direction g) (inputQueue g) (food g) (isPaused g)
         (isGameOver g) (score g) (highScore g) (movesPerSecond g) text false
         (randomCalls g).

Definition hideCenterMessage (g : Game) : Game :=
  mkGame (snake g) (direction g) (inputQueue g) (food g) (isPaused g)
         (isGameOver g) (score g) (highScore g) (movesPerSecond g)
         (messageTitle g) true (randomCalls g).

(** [snake.some(s => s.x === c.x && s.y === c.y)] (lines 188 and 229). *)
Definition sameCell (a b : Cell) : bool := (x a =? x b) && (y a =? y b).
Definition occupies (body : list Cell) (c : Cell) : bool :=
  existsb (fun s => sameCell s c) body.

(** [snake[snake.length - 1]]: [undefined] on the empty array. *)
Definition headOf (body : list Cell) : option Cell :=
  nth_error body (List.length body - 1)%nat.

(** [willReverse] (lines 194-196). *)
Definition willReverse (curr next : Cell) : bool :=
  (x curr + x next =? 0) && (y curr + y next =? 0).

(** The key table of [enqueueDirectionFromKey] (lines 199-203). *)
Definition directionOfKey (code : string) : option Cell :=
  if (code =? "ArrowUp")%string || (code =? "KeyW")%string
  then Some {| x := 0; y := -1 |}
  else if (code =? "ArrowDown")%string || (code =? "KeyS")%string
  then Some {| x := 0; y := 1 |}
  else if (code =? "ArrowLeft")%string || (code =? "KeyA")%string
  then Some {| x := -1; y := 0 |}
  else if (code =? "ArrowRight")%string || (code =? "KeyD")%string
  then Some {| x := 1; y := 0 |}
  else None.

(** [enqueueDirectionFromKey] (lines 198-209). *)
Definition enqueueDirectionFromKey (code : string) (g : Game) : Game :=
  match directionOfKey code with
  | None => g
  | Some next =>
      if (Nat.eqb (List.length (inputQueue g)) 0)
         && negb (willReverse (direction g) next)
      then set_inputQueue (inputQueue g ++ [next])%list g
      else g
  end.

(** [gameOver] (lines 296-299). *)
Definition gameOver (g : Game) : Game :=
  showCenterMessage "Spillet er over" (set_isGameOver true g).

(** [togglePause] (lines 301-306). *)
Definition togglePause (g : Game) : Game :=
  if isGameOver g then g
  else
    let g1 := set_isPaused (negb (isPaused g)) g in
    if isPaused g1 then showCenterMessage "Pause" g1 else hideCenterMessage g1.

(** The first statement of [tick] after its guard (lines 214-217): one
    queued input, if any, becomes the direction. *)
Definition consume (g : Game) : Game :=
  match inputQueue g with
  | [] => g
  | d :: rest => set_inputQueue rest (set_direction d g)
  end.

(** ** Handlers that draw random numbers *)

Section Simulation.

(** [floorRandomTimes n k] is the value of [Math.floor(Math.random() * k)]
    when [Math.random] is called for the n-th time (counting from 0). *)
Variable floorRandomTimes : nat -> Z -> Z.

(** [randomInt] (lines 178-180), at the n-th call of [Math.random]. *)
Definition randomInt (min max : Z) (n : nat) : Z :=
  floorRandomTimes n (max - min + 1) + min.

(** The cell drawn by one round of the loop of [placeFood] (lines 185-186)
    when [calls] random numbers were drawn before it. *)
Definition drawCell (calls : nat) : Cell :=
  {| x := randomInt 0 (GRID_CELLS - 1) calls;
     y := randomInt 0 (GRID_CELLS - 1) (S calls) |}.

(** The do-while loop of [placeFood] (lines 184-188).  [roundsLeft] is
    [10000 - tries] after the [tries++] of the current round, so the test
    [tries < 10000] is [roundsLeft <> 0].  The result is the last cell drawn
    and the number of random numbers drawn so far. *)
Fixpoint placeFoodLoop (roundsLeft : nat) (body : list Cell) (calls : nat)
  : Cell * nat :=
  let c := drawCell calls in
  match roundsLeft with
  | O => (c, S (S calls))
  | S n =>
      if occupies body c then placeFoodLoop n body (S (S calls))
      else (c, S (S calls))
  end.

(** [placeFood] (lines 182-192): [tries] starts at 0, so the first round
    leaves 9999 further rounds. *)
Definition placeFood (g : Game) : Game :=
  let (c, calls) := placeFoodLoop (Z.to_nat 9999) (snake g) (randomCalls g) in
  set_randomCalls calls (set_food (Some c) g).

(** The start snake built by the loop of [resetGame] (lines 160-165). *)
Definition startSnake : list Cell :=
  let startX := GRID_CELLS / 2 - START_LENGTH / 2 in
  let startY := GRID_CELLS / 2 in
  map (fun i => {| x := startX + Z.of_nat i; y := startY |})
      (seq 0 (Z.to_nat START_LENGTH)).

(** [resetGame] (lines 154-176). *)
Definition resetGame (g : Game) : Game :=
  let g := set_snake startSnake g in
  let g := set_direction {| x := 1; y := 0 |} g in
  let g := set_inputQueue [] g in
  let g := set_isPaused false g in
  let g := set_isGameOver false g in
  let g := set_score 0 g in
  let g := set_movesPerSecond BASE_SPEED g in
  let g := placeFood g in
  hideCenterMessage g.

(** The wall test of [tick] (line 223). *)
Definition outOfGrid (c : Cell) : bool :=
  (x c <? 0) || (x c >=? GRID_CELLS) || (y c <? 0) || (y c >=? GRID_CELLS).

(** The cell in front of [head] (line 220). *)
Definition advance (head dir : Cell) : Cell :=
  {| x := x head + x dir; y := y head + y dir |}.

(** The body of the [if] at lines 237-244: the head is on the food. *)
Definition eat (g : Game) : Game :=
  let g := set_score (score g + 1) g in
  let g := setHighScore (score g) g in
  let g :=
    set_movesPerSecond (Z.min MAX_SPEED (BASE_SPEED + score g / 4)) g in
  placeFood g.

(** The win test at the end of [tick] (lines 249-253). *)
Definition checkWin (g : Game) : Game :=
  if Z.of_nat (List.length (snake g)) >=? GRID_CELLS * GRID_CELLS
  then set_isGameOver true (showCenterMessage "Du vant!" g)
  else g.

(** [tick] (lines 211-257). *)
Definition tick (g : Game) : result Game :=
  if isPaused g || isGameOver g then Ok g
  else
    let g := consume g in
    match headOf (snake g) with
    | None => TypeError                       (* head.x of undefined *)
    | Some head =>
        let newHead := advance head (direction g) in
        if outOfGrid newHead then Ok (gameOver g)
        else if occupies (snake g) newHead then Ok (gameOver g)
        else
          let g := set_snake (snake g ++ [newHead]) g in
          match food g with
          | None => TypeError                 (* food.x of null *)
          | Some f =>
              let ate := sameCell newHead f in
              let g := if ate then eat g else g in
              let g := if negb ate then set_snake (tl (snake g)) g else g in
              Ok (checkWin g)
          end
    end.

(** The keydown listener (lines 328-340) and the click on the restart
    button (lines 342-344). *)
Definition keydown (code : string) (g : Game) : Game :=
  if (code =? "Space")%string || (code =? "KeyP")%string then togglePause g
  else if (code =? "KeyR")%string then resetGame g
  else enqueueDirectionFromKey code g.

Definition clickRestart (g : Game) : Game := resetGame g.

(** [n] simulation steps in a row. *)
Fixpoint ticks (n : nat) (g : Game) : result Game :=
  match n with
  | O => Ok g
  | S m =>
      match tick g with
      | Ok g' => ticks m g'
      | TypeError => TypeError
      end
  end.

(** ** The fixed-timestep driver (lines 308-325) *)

(** [dt] (line 309), in seconds. *)
Definition frameDelta (ts last : spec_float) : spec_float :=
  mathMin tenth (orZero (numDiv (numSub ts last) (ofInt 1000))).

(** The while loop (lines 318-321).  The loop need not terminate (a huge
    accumulator absorbs the subtraction), so it runs on fuel: [None] is
    "out of fuel". *)
Fixpoint stepLoop (fuel : nat) (stepInterval acc : spec_float) (g : Game)
  : option (result (spec_float * Game)) :=
  if numGe acc stepInterval then
    match fuel with
    | O => None
    | S fuel' =>
        match tick g with
        | Ok g' => stepLoop fuel' stepInterval (numSub acc stepInterval) g'
        | TypeError => Some TypeError
        end
    end
  else Some (Ok (acc, g)).

(** [animate] without its rendering. *)
Definition animate (fuel : nat) (ts : spec_float) (t : Time) (g : Game)
  : option (result (Time * Game)) :=
  let dt := frameDelta ts (lastTime t) in
  let stepInterval := numDiv (ofInt 1) (ofInt (movesPerSecond g)) in
  match stepLoop fuel stepInterval (numAdd (accumulator t) dt) g with
  | None => None
  | Some TypeError => Some TypeError
  | Some (Ok (acc', g')) =>
      Some (Ok ({| lastTime := ts; accumulator := acc' |}, g'))
  end.

(** The accumulator after [n] rounds of the loop: [n] subtractions of the
    interval, each rounded. *)
Fixpoint drained (stepInterval acc : spec_float) (n : nat) : spec_float :=
  match n with
  | O => acc
  | S m => drained stepInterval (numSub acc stepInterval) m
  end.

(** ** Reachable states *)

(** What can happen to the game: a key goes down, the restart button is
    clicked, or the driver runs a simulation step. *)
Inductive Event : Type :=
| KeyDown (code : string)
| ClickRestart
| Tick.

Definition handle (e : Event) (g : Game) : result Game :=
  match e with
  | KeyDown code => Ok (keydown code g)
  | ClickRestart => Ok (clickRestart g)
  | Tick => tick g
  end.

(** The states reachable from a restart (of any state at all). *)
Inductive reachable : Game -> Prop :=
| reach_restart (g : Game) : reachable (resetGame g)
| reach_step (e : Event) (g g' : Game) :
    reachable g -> handle e g = Ok g' -> reachable g'.

End Simulation.

(** ** Sample oracles and states *)

(** An oracle that cycles through the residues: in range for every [k > 0]. *)
Definition cyclingRandom (n : nat) (k : Z) : Z := Z.of_nat n mod k.

(** An oracle that first puts the food right in front of the start snake,
    at (14,12), and from then on only ever draws the cell (13,12). *)
Definition stubbornRandom (n : nat) (k : Z) : Z :=
  if Nat.eqb n 0 then 14 else if Nat.even n then 13 else 12.

(** The snake of the spec's first scenario, and a game running on it with
    the food out of the way. *)
Definition row8 : list Cell :=
  [mkCell 8 12; mkCell 9 12; mkCell 10 12; mkCell 11 12].

Definition playing (body : list Cell) (dir f : Cell) (sc : Z) : Game :=
  {| snake := body; direction := dir; inputQueue := [];
     food := Some f; isPaused := false; isGameOver := false; score := sc;
     highScore := sc; movesPerSecond := Z.min MAX_SPEED (BASE_SPEED + sc / 4);
     messageTitle := EmptyString; messageHidden := true; randomCalls := 2 |}.

(** A snake coiled in the corner, its head at (0,1) right below its tail,
    and a snake whose head touches the right wall. *)
Definition coil : list Cell :=
  [mkCell 0 0; mkCell 1 0; mkCell 1 1; mkCell 0 1].

Definition atWall : list Cell :=
  [mkCell 20 12; mkCell 21 12; mkCell 22 12; mkCell 23 12].

(** A clock with 0.09 s left over from the frames before. *)
Definition leftover : Time :=
  {| lastTime := ofInt 0; accumulator := numDiv (ofInt 9) (ofInt 100) |}.

(** A cell of the grid, and the state invariant of the game. *)
Definition inGrid (c : Cell) : Prop :=
  0 <= x c < GRID_CELLS /\ 0 <= y c < GRID_CELLS.

Record invariant (g : Game) : Prop := mkInvariant {
  inv_grid : Forall inGrid (snake g);
  inv_distinct : NoDup (snake g);
  inv_queue : (List.length (inputQueue g) <= 1)%nat;
  inv_snake : snake g <> [];
  inv_food : food g <> None;
  inv_score : 0 <= score g;
  inv_speed : BASE_SPEED <= movesPerSecond g <= MAX_SPEED
}.

(** The exact reverse of a direction. *)
Definition opposite (d : Cell) : Cell := {| x := - x d; y := - y d |}.

(** ** The view (lines 65-82 and 259-294)

    The part of the scene that follows the snake: one mesh per snake cell,
    reused from a pool.  Positions are exact (half-integers); colours are
    kept as the calls made on [THREE.Color], not as the RGB values three.js
    computes from them; the gradient is computed on exact rationals. *)

Record Vector3 : Type := mkVector3 { vx : Q; vy : Q; vz : Q }.

Inductive Color : Type :=
| Hex (rgb : Z)                 (* a material colour given as 0xRRGGBB *)
| HSL (h s l : Q)               (* new THREE.Color().setHSL(h, s, l) *)
| Scaled (c : Color) (k : Q).   (* c.clone().multiplyScalar(k) *)

Record Mesh : Type := mkMesh {
  visible : bool;
  position : Vector3;
  color : Color;                 (* material.color *)
  emissive : Color;              (* material.emissive *)
  scale : Q;                     (* scale.setScalar *)
  roughness : Q;
  metalness : Q
}.

Definition CELL_SIZE : Q := 1.
Definition HALF : Q := (inject_Z GRID_CELLS / 2)%Q.

(** [cellToWorld] (lines 65-72). *)
Definition cellToWorld (cx cy : Z) : Vector3 :=
  {| vx := ((inject_Z cx - HALF + (1 # 2)) * CELL_SIZE)%Q;
     vy := 1 # 2;
     vz := ((inject_Z cy - HALF + (1 # 2)) * CELL_SIZE)%Q |}.

(** The gradient parameter [t] of [pickBlueByIndex] (line 76). *)
Definition gradient (index total : nat) : Q :=
  if (total <=? 1)%nat then 0%Q
  else (inject_Z (Z.of_nat index) / inject_Z (Z.of_nat total - 1))%Q.

(** [pickBlueByIndex] (lines 74-82). *)
Definition pickBlueByIndex (index total : nat) : Color :=
  let t := gradient index total in
  let hue := (210 + 10 * (1 - t))%Q in
  let sat := ((65 # 100) - (15 # 100) * t)%Q in
  let lig := ((56 # 100) - (18 # 100) * t)%Q in
  HSL (hue / 360)%Q sat lig.

(** A mesh as line 262 creates it: [bodyMaterial.clone()] (line 135) on the
    snake geometry, visible, at the origin, unscaled. *)
Definition newMesh : Mesh :=
  {| visible := true; position := mkVector3 0 0 0;
     color := Hex 0x1b3a66; emissive := Hex 0x0a2344; scale := 1;
     roughness := 65 # 100; metalness := 15 # 100 |}.

(** The body of the [for] loop of [syncMeshesToSnake] (lines 270-292) for
    the mesh of index [i]. *)
Definition placeMesh (body : list Cell) (i : nat) (mesh : Mesh) : Mesh :=
  match nth_error body i with
  | Some seg =>                               (* i < snake.length *)
      let c := pickBlueByIndex i (List.length body) in
      let isHead := Nat.eqb i (List.length body - 1) in
      {| visible := true;
         position := cellToWorld (x seg) (y seg);
         color := c;
         emissive := Scaled c (35 # 100);
         scale := if isHead then 106 # 100 else 1%Q;
         roughness := if isHead then 45 # 100 else 6 # 10;
         metalness := if isHead then 25 # 100 else 18 # 100 |}
  | None =>
      mkMesh false (position mesh) (color mesh) (emissive mesh) (scale mesh)
             (roughness mesh) (metalness mesh)
  end.

(** The [for] loop over the pool, from index [i] on. *)
Fixpoint placeMeshes (body : list Cell) (i : nat) (meshes : list Mesh)
  : list Mesh :=
  match meshes with
  | [] => []
  | mesh :: rest => placeMesh body i mesh :: placeMeshes body (S i) rest
  end.

(** [syncMeshesToSnake] (lines 259-294): grow the pool to the length of the
    snake, then place every mesh of the pool. *)
Definition syncMeshesToSnake (meshes : list Mesh) (body : list Cell)
  : list Mesh :=
  let pool :=
    (meshes
       ++ repeat newMesh (List.length body - List.length meshes))%list in
  placeMeshes body 0 pool.

(** Whether [tick] runs to its end, where it calls [syncMeshesToSnake]
    (line 255), rather than leaving through one of its early returns. *)
Definition tickSyncs (g : Game) : bool :=
  negb (isPaused g || isGameOver g)
  && match headOf (snake (consume g)) with
     | Some head =>
         let newHead := advance head (direction (consume g)) in
         negb (outOfGrid newHead)
         && negb (occupies (snake (consume g)) newHead)
     | None => false
     end.

Section View.

Variable floorRandomTimes : nat -> Z -> Z.

(** [resetGame] with the pool: the old meshes are dropped (lines 156-157)
    and the new snake is synced (line 175). *)
Definition resetGameView (w : Game * list Mesh) : Game * list Mesh :=
  let g := resetGame floorRandomTimes (fst w) in
  (g, syncMeshesToSnake [] (snake g)).

(** [tick] with the pool. *)
Definition tickView (w : Game * list Mesh) : result (Game * list Mesh) :=
  match tick floorRandomTimes (fst w) with
  | Ok g =>
      Ok (g, if tickSyncs (fst w) then syncMeshesToSnake (snd w) (snake g)
             else snd w)
  | TypeError => TypeError
  end.

(** The listeners with the pool; only restart and [tick] touch it. *)
Definition handleView (e : Event) (w : Game * list Mesh)
  : result (Game * list Mesh) :=
  match e with
  | KeyDown code =>
      if (code =? "Space")%string || (code =? "KeyP")%string
      then Ok (togglePause (fst w), snd w)
      else if (code =? "KeyR")%string then Ok (resetGameView w)
      else Ok (enqueueDirectionFromKey code (fst w), snd w)
  | ClickRestart => Ok (resetGameView w)
  | Tick => tickView w
  end.

(** Game and pool as reachable from a restart. *)
Inductive reachableView : Game * list Mesh -> Prop :=
| reachView_restart (w : Game * list Mesh) : reachableView (resetGameView w)
| reachView_step (e : Event) (w w' : Game * list Mesh) :
    reachableView w -> handleView e w = Ok w' -> reachableView w'.

(** A run of events, stopping at the first exception. *)
Fixpoint run (es : list Event) (g : Game) : result Game :=
  match es with
  | [] => Ok g
  | e :: rest =>
      match handle floorRandomTimes e g with
      | Ok g' => run rest g'
      | TypeError => TypeError
      end
  end.

End View.

(** ** More of the state invariant *)

(** The four directions of the key table. *)
Definition unitDirection (d : Cell) : Prop :=
  d = mkCell 1 0 \/ d = mkCell (-1) 0 \/ d = mkCell 0 1 \/ d = mkCell 0 (-1).

(** Consecutive cells of a body are neighbours on the grid. *)
Fixpoint chained (body : list Cell) : Prop :=
  match body with
  | a :: (b :: _) as rest =>
      (exists d, unitDirection d /\ b = advance a d) /\ chained rest
  | _ => True
  end.

(** All cells of the grid. *)
Definition gridCells : list Cell :=
  flat_map (fun i => map (fun j => mkCell (Z.of_nat i) (Z.of_nat j))
                         (seq 0 (Z.to_nat GRID_CELLS)))
           (seq 0 (Z.to_nat GRID_CELLS)).

(** What holds of every reachable state besides [invariant]: the length of
    the snake and the speed follow the score, the direction and the queued
    intent are unit steps and the intent does not reverse the direction,
    the body is a path whose last link is the direction, and the centre
    message tells the session state. *)
Record coherent (g : Game) : Prop := mkCoherent {
  coh_length : Z.of_nat (List.length (snake g)) = START_LENGTH + score g;
  coh_speed :
    movesPerSecond g = Z.min MAX_SPEED (BASE_SPEED + score g / 4);
  coh_direction : unitDirection (direction g);
  coh_queue :
    forall d, In d (inputQueue g) ->
              unitDirection d /\ willReverse (direction g) d = false;
  coh_chain : chained (snake g);
  coh_link :
    isGameOver g = false ->
    forall head neck rest,
      rev (snake g) = head :: neck :: rest ->
      head = advance neck (direction g);
  coh_exclusive : isPaused g && isGameOver g = false;
  coh_hidden : messageHidden g = negb (isPaused g || isGameOver g);
  coh_pause_title : isPaused g = true -> messageTitle g = "Pause"%string;
  coh_over_title :
    isGameOver g = true ->
    messageTitle g =
      if GRID_CELLS * GRID_CELLS <=? Z.of_nat (List.length (snake g))
      then "Du vant!"%string else "Spillet er over"%string;
  coh_full :
    GRID_CELLS * GRID_CELLS <= Z.of_nat (List.length (snake g)) ->
    isGameOver g = true
}.

(** An oracle is in range when it behaves as [Math.floor(Math.random() * k)]
    does for a positive integer [k]. *)
Definition inRange (rnd : nat -> Z -> Z) : Prop :=
  forall (n : nat) (k : Z), 0 < k -> 0 <= rnd n k < k.


(** ** Properties *)

Section Properties.

Variable rnd : nat -> Z -> Z.

(** *** Cells and bodies *)

Lemma sameCell_true (a b : Cell) : sameCell a b = true <-> a = b.
Proof.
  unfold sameCell. rewrite andb_true_iff, !Z.eqb_eq.
  destruct a as [ax ay], b as [bx b_y]; cbn. split.
  - intros [-> ->]. reflexivity.
  - intros E. injection E as -> ->. auto.
Qed.

Lemma sameCell_refl (a : Cell) : sameCell a a = true.
Proof. apply sameCell_true. reflexivity. Qed.

Lemma occupies_true (body : list Cell) (c : Cell) :
  occupies body c = true <-> In c body.
Proof.
  unfold occupies. rewrite existsb_exists. split.
  - intros [s [Hin Hs]]. apply sameCell_true in Hs. subst. exact Hin.
  - intros Hin. exists c. split; [exact Hin | apply sameCell_refl].
Qed.

Lemma occupies_false (body : list Cell) (c : Cell) :
  occupies body c = false <-> ~ In c body.
Proof.
  rewrite <- occupies_true. destruct (occupies body c); split; intros H.
  - discriminate.
  - exfalso; apply H; reflexivity.
  - discriminate.
  - reflexivity.
Qed.

Lemma headOf_snoc (body : list Cell) (h : Cell) : headOf (body ++ [h]) = Some h.
Proof.
  unfold headOf. rewrite length_app. cbn [List.length].
  replace (List.length body + 1 - 1)%nat with (List.length body) by lia.
  rewrite nth_error_app2 by lia. rewrite Nat.sub_diag. reflexivity.
Qed.

Lemma headOf_Some (body : list Cell) (h : Cell) :
  headOf body = Some h -> exists front, body = front ++ [h].
Proof.
  induction body as [|c front _] using rev_ind.
  - discriminate.
  - rewrite headOf_snoc. intros E. injection E as ->. exists front. reflexivity.
Qed.

Lemma headOf_None (body : list Cell) : headOf body = None -> body = [].
Proof.
  induction body as [|c front _] using rev_ind; [reflexivity |].
  rewrite headOf_snoc. discriminate.
Qed.

Lemma outOfGrid_false (c : Cell) :
  outOfGrid c = false <->
  (0 <= x c < GRID_CELLS /\ 0 <= y c < GRID_CELLS).
Proof.
  unfold outOfGrid, GRID_CELLS. rewrite !orb_false_iff.
  rewrite !Z.ltb_ge, !Z.geb_leb, !Z.leb_gt. lia.
Qed.

(** *** The consume step *)

Lemma snake_consume (g : Game) : snake (consume g) = snake g.
Proof. unfold consume. destruct (inputQueue g); reflexivity. Qed.

Lemma food_consume (g : Game) : food (consume g) = food g.
Proof. unfold consume. destruct (inputQueue g); reflexivity. Qed.

Lemma score_consume (g : Game) : score (consume g) = score g.
Proof. unfold consume. destruct (inputQueue g); reflexivity. Qed.

Lemma highScore_consume (g : Game) : highScore (consume g) = highScore g.
Proof. unfold consume. destruct (inputQueue g); reflexivity. Qed.

Lemma randomCalls_consume (g : Game) : randomCalls (consume g) = randomCalls g.
Proof. unfold consume. destruct (inputQueue g); reflexivity. Qed.

Lemma consume_empty (g : Game) : inputQueue g = [] -> consume g = g.
Proof. unfold consume. intros ->. reflexivity. Qed.

(** *** Food placement and the win test keep the rest of the state *)

Lemma placeFood_fields (g : Game) :
  let g' := placeFood rnd g in
  snake g' = snake g /\ direction g' = direction g /\
  inputQueue g' = inputQueue g /\ isPaused g' = isPaused g /\
  isGameOver g' = isGameOver g /\ score g' = score g /\
  highScore g' = highScore g /\ movesPerSecond g' = movesPerSecond g /\
  food g' = Some (fst (placeFoodLoop rnd (Z.to_nat 9999) (snake g) (randomCalls g))).
Proof.
  unfold placeFood.
  destruct (placeFoodLoop rnd (Z.to_nat 9999) (snake g) (randomCalls g)) as [c n].
  cbn. repeat split; reflexivity.
Qed.

Lemma checkWin_fields (g : Game) :
  let g' := checkWin g in
  snake g' = snake g /\ direction g' = direction g /\
  inputQueue g' = inputQueue g /\ isPaused g' = isPaused g /\
  score g' = score g /\ highScore g' = highScore g /\
  movesPerSecond g' = movesPerSecond g /\ food g' = food g /\
  randomCalls g' = randomCalls g.
Proof.
  unfold checkWin.
  destruct (Z.of_nat (List.length (snake g)) >=? GRID_CELLS * GRID_CELLS);
    cbn; repeat split; reflexivity.
Qed.

(** *** One simulation step, case by case *)

(** A running game with a head runs the body of [tick]. *)
Lemma tick_running (g : Game) (head : Cell) :
  isPaused g = false -> isGameOver g = false ->
  headOf (snake g) = Some head ->
  tick rnd g =
    let g1 := consume g in
    let newHead := advance head (direction g1) in
    if outOfGrid newHead then Ok (gameOver g1)
    else if occupies (snake g) newHead then Ok (gameOver g1)
    else
      match food g with
      | None => TypeError
      | Some f =>
          let g2 := set_snake (snake g ++ [newHead]) g1 in
          if sameCell newHead f then Ok (checkWin (eat rnd g2))
          else Ok (checkWin (set_snake (tl (snake g ++ [newHead])) g2))
      end.
Proof.
  intros Hp Ho Hh. unfold tick. rewrite Hp, Ho. cbn [orb].
  rewrite snake_consume, Hh. cbn zeta.
  destruct (outOfGrid _); [reflexivity |].
  destruct (occupies _ _); [reflexivity |].
  change (food (set_snake ?b ?h)) with (food h). rewrite food_consume.
  destruct (food g) as [f|]; [| reflexivity].
  destruct (sameCell _ f); reflexivity.
Qed.

Lemma eat_fields (g : Game) :
  let g' := eat rnd g in
  snake g' = snake g /\ isPaused g' = isPaused g /\
  isGameOver g' = isGameOver g /\ score g' = score g + 1 /\
  highScore g' = Z.max (highScore g) (score g + 1) /\
  movesPerSecond g' = Z.min MAX_SPEED (BASE_SPEED + (score g + 1) / 4) /\
  food g' = food (placeFood rnd g).
Proof.
  unfold eat. cbn zeta.
  match goal with |- context [placeFood rnd ?h] => set (g1 := h) end.
  destruct (placeFood_fields g1) as (Hs & _ & _ & Hp & Ho & Hsc & Hh & Hm & Hf).
  destruct (placeFood_fields g) as (_ & _ & _ & _ & _ & _ & _ & _ & Hf').
  rewrite Hs, Hp, Ho, Hsc, Hh, Hm, Hf, Hf'. subst g1. cbn.
  repeat split; reflexivity.
Qed.

Lemma tl_snoc (body : list Cell) (c : Cell) :
  body <> [] -> tl (body ++ [c]) = tl body ++ [c].
Proof. destruct body; [congruence | reflexivity]. Qed.

Lemma hd_error_snoc (body : list Cell) (c : Cell) :
  body <> [] -> hd_error (body ++ [c]) = hd_error body.
Proof. destruct body; [congruence | reflexivity]. Qed.

Lemma headOf_nonempty (body : list Cell) (h : Cell) :
  headOf body = Some h -> body <> [].
Proof. intros H ->. discriminate. Qed.

(** The loop of [placeFood] stops at the first unoccupied draw, or at its
    last round. *)
Lemma placeFoodLoop_spec (n : nat) (body : list Cell) (calls : nat) :
  exists k : nat,
    (k <= n)%nat /\
    placeFoodLoop rnd n body calls
      = (drawCell rnd (calls + 2 * k), (calls + 2 * k + 2)%nat) /\
    (forall j : nat, (j < k)%nat ->
                     occupies body (drawCell rnd (calls + 2 * j)) = true) /\
    (occupies body (drawCell rnd (calls + 2 * k)) = false \/ k = n).
Proof.
  revert calls. induction n as [|n IH]; intros calls.
  - exists 0%nat. cbn [placeFoodLoop].
    replace (calls + 2 * 0)%nat with calls by lia.
    replace (calls + 2)%nat with (S (S calls)) by lia.
    split; [lia |]. split; [reflexivity |]. split; [lia | auto].
  - cbn [placeFoodLoop]. destruct (occupies body (drawCell rnd calls)) eqn:E.
    + destruct (IH (S (S calls))) as (k & Hk & Hres & Hocc & Hlast).
      exists (S k).
      replace (calls + 2 * S k)%nat with (S (S calls) + 2 * k)%nat by lia.
      split; [lia |]. split; [exact Hres |]. split.
      * intros [|j] Hj.
        -- replace (calls + 2 * 0)%nat with calls by lia. exact E.
        -- replace (calls + 2 * S j)%nat with (S (S calls) + 2 * j)%nat by lia.
           apply Hocc. lia.
      * destruct Hlast as [H | ->]; [left; exact H | right; reflexivity].
    + exists 0%nat.
      replace (calls + 2 * 0)%nat with calls by lia.
      replace (calls + 2)%nat with (S (S calls)) by lia.
      split; [lia |]. split; [reflexivity |]. split; [lia | auto].
Qed.

(** The food and the random source after [placeFood], by the draws. *)
Lemma placeFood_draws (g : Game) :
  exists k : nat,
    (k <= Z.to_nat 9999)%nat /\
    food (placeFood rnd g) = Some (drawCell rnd (randomCalls g + 2 * k)) /\
    randomCalls (placeFood rnd g) = (randomCalls g + 2 * k + 2)%nat /\
    (forall j : nat, (j < k)%nat ->
       occupies (snake g) (drawCell rnd (randomCalls g + 2 * j)) = true) /\
    (occupies (snake g) (drawCell rnd (randomCalls g + 2 * k)) = false \/
     k = Z.to_nat 9999).
Proof.
  unfold placeFood.
  destruct (placeFoodLoop_spec (Z.to_nat 9999) (snake g) (randomCalls g))
    as (k & Hk & Hres & Hocc & Hlast).
  rewrite Hres. cbn [snake food randomCalls set_randomCalls set_food].
  exists k. auto.
Qed.

(** The same for the food eaten by [eat]. *)
Lemma eat_draws (g : Game) :
  exists k : nat,
    (k <= Z.to_nat 9999)%nat /\
    food (eat rnd g) = Some (drawCell rnd (randomCalls g + 2 * k)) /\
    randomCalls (eat rnd g) = (randomCalls g + 2 * k + 2)%nat /\
    (forall j : nat, (j < k)%nat ->
       occupies (snake g) (drawCell rnd (randomCalls g + 2 * j)) = true) /\
    (occupies (snake g) (drawCell rnd (randomCalls g + 2 * k)) = false \/
     k = Z.to_nat 9999).
Proof.
  unfold eat. cbn zeta.
  match goal with |- context [placeFood rnd ?h] =>
    set (g1 := h); destruct (placeFood_draws g1) as (k & H) end.
  exists k. exact H.
Qed.

(** *** The claims about one step *)

(** C1.  In a running game whose next head cell is on the grid, off the
    snake and on the food, [tick] adds one to the score, raises the high
    score to at least the new score, sets the speed to
    [min 14 (6 + score / 4)] for the new score and keeps the tail: the
    snake is the old one with the new head appended, one cell longer.  The
    food is placed again by [placeFood] on the grown snake: it leaves the
    eaten cell for the first cell drawn that is off the grown snake, or for
    the 10,000th cell drawn, and the draws are consumed. *)
Theorem tick_eats_food (g : Game) (head : Cell) :
  isPaused g = false -> isGameOver g = false ->
  headOf (snake g) = Some head ->
  let newHead := advance head (direction (consume g)) in
  0 <= x newHead < GRID_CELLS -> 0 <= y newHead < GRID_CELLS ->
  ~ In newHead (snake g) ->
  food g = Some newHead ->
  exists g',
    tick rnd g = Ok g' /\
    score g' = score g + 1 /\
    highScore g' = Z.max (highScore g) (score g') /\
    movesPerSecond g' = Z.min 14 (6 + score g' / 4) /\
    snake g' = snake g ++ [newHead] /\
    hd_error (snake g') = hd_error (snake g) /\
    List.length (snake g') = S (List.length (snake g)) /\
    food g' = food (placeFood rnd (set_snake (snake g ++ [newHead]) g)) /\
    exists k : nat,
      let draw (j : nat) := drawCell rnd (randomCalls g + 2 * j) in
      Z.of_nat k < 10000 /\
      food g' = Some (draw k) /\
      randomCalls g' = (randomCalls g + 2 * k + 2)%nat /\
      (forall j : nat, (j < k)%nat -> In (draw j) (snake g')) /\
      (~ In (draw k) (snake g') \/ Z.of_nat k = 9999) /\
      (~ In (draw k) (snake g') -> draw k <> newHead).
Proof.
  intros Hp Ho Hh newHead Hx Hy Hfree Hfood.
  rewrite (tick_running g head Hp Ho Hh). cbn zeta. fold newHead.
  assert (Hin : outOfGrid newHead = false) by (apply outOfGrid_false; auto).
  assert (Hocc : occupies (snake g) newHead = false)
    by (apply occupies_false; exact Hfree).
  rewrite Hin, Hocc, Hfood, sameCell_refl.
  set (g2 := set_snake (snake g ++ [newHead]) (consume g)).
  destruct (checkWin_fields (eat rnd g2))
    as (Ws & _ & _ & _ & Wsc & Wh & Wm & Wf & Wr).
  destruct (eat_fields g2) as (Es & _ & _ & Esc & Eh & Em & Ef).
  destruct (eat_draws g2) as (k & Hk & Dfood & Dcalls & Docc & Dlast).
  exists (checkWin (eat rnd g2)). split; [reflexivity |].
  rewrite Ws, Wsc, Wh, Wm, Wf, Wr, Es, Esc, Eh, Em.
  assert (Hsc : score g2 = score g) by (subst g2; cbn; apply score_consume).
  assert (Hhs : highScore g2 = highScore g)
    by (subst g2; cbn; apply highScore_consume).
  assert (Hrc : randomCalls g2 = randomCalls g)
    by (subst g2; cbn; apply randomCalls_consume).
  assert (Hsn : snake g2 = snake g ++ [newHead]) by reflexivity.
  rewrite Hsc, Hhs. rewrite Hrc in Dfood, Dcalls, Docc, Dlast.
  rewrite Hsn in Docc, Dlast.
  split; [reflexivity |]. split; [reflexivity |]. split; [reflexivity |].
  split; [exact Hsn |]. rewrite Hsn.
  split; [apply hd_error_snoc; exact (headOf_nonempty _ _ Hh) |].
  split; [rewrite length_app; cbn; lia |].
  split.
  { rewrite Ef.
    destruct (placeFood_fields g2) as (_ & _ & _ & _ & _ & _ & _ & _ & F2).
    destruct (placeFood_fields (set_snake (snake g ++ [newHead]) g))
      as (_ & _ & _ & _ & _ & _ & _ & _ & F1).
    rewrite F1, F2. subst g2. cbn. rewrite randomCalls_consume. reflexivity. }
  exists k. cbn zeta.
  split; [lia |]. split; [exact Dfood |]. split; [exact Dcalls |].
  split; [intros j Hj; apply occupies_true, Docc, Hj |].
  split.
  - destruct Dlast as [Hfreek | Hlast];
      [left; apply occupies_false, Hfreek | right; lia].
  - intros Hoff E. apply Hoff. rewrite E. apply in_or_app. right. left.
    reflexivity.
Qed.

(** C2.  In a running game with an empty input queue whose next head cell is
    on the grid, off the snake and off the food, [tick] appends the new head
    and drops the tail, so the length is unchanged; from the snake
    (8,12),(9,12),(10,12),(11,12) heading (1,0) the result is
    (9,12),(10,12),(11,12),(12,12), and (8,12) is vacated. *)
Theorem tick_moves (g : Game) (head f : Cell) :
  isPaused g = false -> isGameOver g = false ->
  inputQueue g = [] ->
  headOf (snake g) = Some head ->
  let newHead := advance head (direction g) in
  0 <= x newHead < GRID_CELLS -> 0 <= y newHead < GRID_CELLS ->
  ~ In newHead (snake g) ->
  food g = Some f -> newHead <> f ->
  exists g',
    tick rnd g = Ok g' /\
    snake g' = tl (snake g) ++ [newHead] /\
    List.length (snake g') = List.length (snake g) /\
    food g' = food g /\ score g' = score g /\
    (snake g = row8 -> direction g = mkCell 1 0 ->
     snake g' = [mkCell 9 12; mkCell 10 12; mkCell 11 12; mkCell 12 12] /\
     ~ In (mkCell 8 12) (snake g')).
Proof.
  intros Hp Ho Hq Hh newHead Hx Hy Hfree Hfood Hne.
  rewrite (tick_running g head Hp Ho Hh). cbn zeta.
  rewrite (consume_empty g Hq). fold newHead.
  assert (Hin : outOfGrid newHead = false) by (apply outOfGrid_false; auto).
  assert (Hocc : occupies (snake g) newHead = false)
    by (apply occupies_false; exact Hfree).
  assert (Hsame : sameCell newHead f = false).
  { destruct (sameCell newHead f) eqn:E; [| reflexivity].
    apply sameCell_true in E. contradiction. }
  rewrite Hin, Hocc, Hfood, Hsame.
  set (g2 := set_snake (tl (snake g ++ [newHead]))
                       (set_snake (snake g ++ [newHead]) g)).
  destruct (checkWin_fields g2) as (Ws & _ & _ & _ & Wsc & _ & _ & Wf & _).
  exists (checkWin g2). split; [reflexivity |].
  rewrite Ws, Wsc, Wf. subst g2. cbn [snake set_snake food score].
  pose proof (headOf_nonempty _ _ Hh) as Hnil.
  rewrite (tl_snoc _ _ Hnil).
  split; [reflexivity |]. split.
  { rewrite length_app. destruct (snake g); [congruence |]. cbn. lia. }
  split; [exact Hfood |]. split; [reflexivity |].
  intros Hrow Hdir. subst newHead. revert Hh. rewrite Hrow, Hdir. cbn.
  intros E; injection E as <-. cbn. split; [reflexivity |].
  intros [E|[E|[E|[E|[]]]]]; discriminate.
Qed.

(** C3.  The self-collision test runs on the snake as it is before the
    move, tail included: in a running game whose next head cell is on any
    snake cell, and in particular on the tail cell (the first of the array),
    [tick] ends the game and leaves the snake as it was. *)
Theorem tick_self_collision (g : Game) (head : Cell) :
  isPaused g = false -> isGameOver g = false ->
  headOf (snake g) = Some head ->
  let newHead := advance head (direction (consume g)) in
  In newHead (snake g) \/ hd_error (snake g) = Some newHead ->
  exists g',
    tick rnd g = Ok g' /\ g' = gameOver (consume g) /\
    isGameOver g' = true /\ snake g' = snake g /\
    messageTitle g' = "Spillet er over"%string.
Proof.
  intros Hp Ho Hh newHead Hhit.
  assert (Hin : In newHead (snake g)).
  { destruct Hhit as [Hin | Htail]; [exact Hin |].
    destruct (snake g) as [|t rest]; [discriminate |].
    injection Htail as ->. left. reflexivity. }
  rewrite (tick_running g head Hp Ho Hh). cbn zeta. fold newHead.
  apply occupies_true in Hin. rewrite Hin.
  exists (gameOver (consume g)).
  split; [destruct (outOfGrid newHead); reflexivity |].
  split; [reflexivity |]. cbn. rewrite snake_consume. auto.
Qed.

(** C4.  In a running game whose next head cell is off the grid, [tick]
    ends the game and the snake is the one from before the step. *)
Theorem tick_wall_collision (g : Game) (head : Cell) :
  isPaused g = false -> isGameOver g = false ->
  headOf (snake g) = Some head ->
  let newHead := advance head (direction (consume g)) in
  ~ (0 <= x newHead < GRID_CELLS /\ 0 <= y newHead < GRID_CELLS) ->
  exists g',
    tick rnd g = Ok g' /\ g' = gameOver (consume g) /\
    isGameOver g' = true /\ snake g' = snake g /\
    messageTitle g' = "Spillet er over"%string.
Proof.
  intros Hp Ho Hh newHead Hout.
  rewrite (tick_running g head Hp Ho Hh). cbn zeta. fold newHead.
  destruct (outOfGrid newHead) eqn:E.
  - exists (gameOver (consume g)). split; [reflexivity |].
    split; [reflexivity |]. cbn. rewrite snake_consume. auto.
  - apply outOfGrid_false in E. contradiction.
Qed.

(** *** The invariant *)

Lemma eat_rest (g : Game) :
  inputQueue (eat rnd g) = inputQueue g /\ food (eat rnd g) <> None.
Proof.
  unfold eat. cbn zeta.
  match goal with |- context [placeFood rnd ?h] => set (g1 := h) end.
  destruct (placeFood_fields g1) as (_ & _ & Hq & _ & _ & _ & _ & _ & Hf).
  rewrite Hq, Hf. split; [reflexivity | discriminate].
Qed.

Lemma queue_consume (g : Game) :
  (List.length (inputQueue (consume g)) <= List.length (inputQueue g))%nat.
Proof.
  unfold consume. destruct (inputQueue g) as [|d rest] eqn:E; cbn; [| lia].
  rewrite E. cbn. lia.
Qed.

Lemma movesPerSecond_consume (g : Game) :
  movesPerSecond (consume g) = movesPerSecond g.
Proof. unfold consume. destruct (inputQueue g); reflexivity. Qed.

Lemma startSnake_cells :
  startSnake = [mkCell 10 12; mkCell 11 12; mkCell 12 12; mkCell 13 12].
Proof. reflexivity. Qed.

Lemma resetGame_invariant (g : Game) : invariant (resetGame rnd g).
Proof.
  unfold resetGame. cbn zeta.
  match goal with |- context [placeFood rnd ?h] => set (g1 := h) end.
  destruct (placeFood_fields g1) as (Hs & _ & Hq & _ & _ & Hsc & _ & Hm & Hf).
  constructor; cbn [snake inputQueue food score movesPerSecond hideCenterMessage];
    rewrite ?Hs, ?Hq, ?Hsc, ?Hm, ?Hf; subst g1; cbn;
    unfold BASE_SPEED, MAX_SPEED; try lia; try discriminate.
  - repeat constructor; cbn; unfold GRID_CELLS; lia.
  - repeat constructor; cbn; intuition discriminate.
Qed.

Lemma togglePause_invariant (g : Game) : invariant g -> invariant (togglePause g).
Proof.
  intros [? ? ? ? ? ? ?]. unfold togglePause.
  destruct (isGameOver g); [constructor; assumption |].
  cbn. destruct (negb (isPaused g)); constructor; assumption.
Qed.

Lemma enqueue_invariant (code : string) (g : Game) :
  invariant g -> invariant (enqueueDirectionFromKey code g).
Proof.
  intros I. pose proof I as [? ? ? ? ? ? ?]. unfold enqueueDirectionFromKey.
  destruct (directionOfKey code) as [next|]; [| exact I].
  destruct (inputQueue g) as [|d rest] eqn:E; cbn; [| exact I].
  destruct (negb (willReverse (direction g) next)); [| exact I].
  constructor; cbn; try assumption. lia.
Qed.

Lemma keydown_invariant (code : string) (g : Game) :
  invariant g -> invariant (keydown rnd code g).
Proof.
  intros I. unfold keydown.
  destruct ((code =? "Space")%string || (code =? "KeyP")%string).
  - apply togglePause_invariant, I.
  - destruct (code =? "KeyR")%string.
    + apply resetGame_invariant.
    + apply enqueue_invariant, I.
Qed.

Lemma gameOver_invariant (g : Game) : invariant g -> invariant (gameOver g).
Proof. intros [? ? ? ? ? ? ?]. constructor; assumption. Qed.

Lemma consume_invariant (g : Game) : invariant g -> invariant (consume g).
Proof.
  intros I. pose proof I as [? ? ? ? ? ? ?].
  constructor;
    rewrite ?snake_consume, ?food_consume, ?score_consume,
      ?movesPerSecond_consume; try assumption.
  pose proof (queue_consume g). lia.
Qed.

Lemma checkWin_invariant (g : Game) : invariant g -> invariant (checkWin g).
Proof.
  intros [? ? ? ? ? ? ?].
  destruct (checkWin_fields g) as (Hs & _ & Hq & _ & Hsc & _ & Hm & Hf & _).
  constructor; rewrite ?Hs, ?Hq, ?Hsc, ?Hm, ?Hf; assumption.
Qed.

Lemma NoDup_snoc (body : list Cell) (c : Cell) :
  NoDup body -> ~ In c body -> NoDup (body ++ [c]).
Proof.
  intros Hnd Hc. apply NoDup_rev in Hnd.
  rewrite <- (rev_involutive (body ++ [c])). apply NoDup_rev.
  rewrite rev_app_distr. cbn. constructor; [| exact Hnd].
  rewrite <- in_rev. exact Hc.
Qed.

Lemma NoDup_tl (body : list Cell) : NoDup body -> NoDup (tl body).
Proof. intros H. destruct H; [constructor | assumption]. Qed.

Lemma Forall_tl (P : Cell -> Prop) (body : list Cell) :
  Forall P body -> Forall P (tl body).
Proof. intros H. destruct H; [constructor | assumption]. Qed.

(** A step of a game that satisfies the invariant does not throw. *)
Lemma tick_total (g : Game) :
  snake g <> [] -> food g <> None -> exists g', tick rnd g = Ok g'.
Proof.
  intros Hs Hf. unfold tick.
  destruct (isPaused g || isGameOver g); [eexists; reflexivity |].
  rewrite snake_consume.
  destruct (headOf (snake g)) as [head|] eqn:Hh;
    [| apply headOf_None in Hh; contradiction].
  cbn zeta. destruct (outOfGrid _); [eexists; reflexivity |].
  destruct (occupies _ _); [eexists; reflexivity |].
  change (food (set_snake ?b ?h)) with (food h). rewrite food_consume.
  destruct (food g); [eexists; reflexivity | contradiction].
Qed.

Lemma tick_invariant (g g' : Game) :
  invariant g -> tick rnd g = Ok g' -> invariant g'.
Proof.
  intros I. destruct (isPaused g || isGameOver g) eqn:Hrun.
  { unfold tick. rewrite Hrun. intros E; injection E as <-. exact I. }
  apply orb_false_iff in Hrun. destruct Hrun as [Hp Ho].
  destruct (headOf (snake g)) as [head|] eqn:Hh.
  2:{ apply headOf_None in Hh. destruct (inv_snake g I Hh). }
  rewrite (tick_running g head Hp Ho Hh). cbn zeta.
  pose proof (consume_invariant g I) as I1.
  set (newHead := advance head (direction (consume g))).
  destruct (outOfGrid newHead) eqn:Hout.
  { intros E; injection E as <-. apply gameOver_invariant, I1. }
  destruct (occupies (snake g) newHead) eqn:Hocc.
  { intros E; injection E as <-. apply gameOver_invariant, I1. }
  apply outOfGrid_false in Hout. apply occupies_false in Hocc.
  destruct (food g) as [f|] eqn:Hf; [| discriminate].
  destruct I1 as [G1 D1 Q1 S1 F1 C1 M1]. rewrite snake_consume in G1, D1.
  assert (G2 : Forall inGrid (snake g ++ [newHead])).
  { apply Forall_app. split; [exact G1 | repeat constructor; apply Hout]. }
  assert (D2 : NoDup (snake g ++ [newHead])) by (apply NoDup_snoc; assumption).
  destruct (sameCell newHead f).
  - intros E; injection E as <-. apply checkWin_invariant.
    set (g2 := set_snake (snake g ++ [newHead]) (consume g)).
    destruct (eat_fields g2) as (Es & _ & _ & Esc & _ & Em & _).
    destruct (eat_rest g2) as (Eq & Ef).
    assert (C2 : 0 <= score g2) by exact C1.
    constructor; rewrite ?Es, ?Eq, ?Esc, ?Em; try assumption.
    + destruct (snake g); discriminate.
    + lia.
    + pose proof (Z.div_pos (score g2 + 1) 4).
      unfold MAX_SPEED, BASE_SPEED. lia.
  - intros E; injection E as <-. apply checkWin_invariant.
    constructor; cbn [snake set_snake inputQueue food score movesPerSecond];
      try assumption.
    + apply Forall_tl, G2.
    + apply NoDup_tl, D2.
    + destruct (snake g) as [|a [|b rest]]; cbn; discriminate.
Qed.

Lemma reachable_invariant (g : Game) : reachable rnd g -> invariant g.
Proof.
  induction 1 as [g | e g g' _ IH Hstep].
  - apply resetGame_invariant.
  - destruct e as [code | |]; cbn in Hstep.
    + injection Hstep as <-. apply keydown_invariant, IH.
    + injection Hstep as <-. apply resetGame_invariant.
    + exact (tick_invariant g g' IH Hstep).
Qed.

(** C5.  In every state reachable from a restart by key presses, clicks on
    the restart button and simulation steps, every snake cell is on the
    24 x 24 grid, and while the game is not over (running or paused) the
    snake cells are pairwise distinct. *)
Theorem reachable_snake_on_grid_distinct (g : Game) :
  reachable rnd g ->
  (forall c, In c (snake g) ->
             0 <= x c < GRID_CELLS /\ 0 <= y c < GRID_CELLS) /\
  (isGameOver g = false -> NoDup (snake g)).
Proof.
  intros R. destruct (reachable_invariant g R) as [G D _ _ _ _ _]. split.
  - intros c Hc. rewrite Forall_forall in G. exact (G c Hc).
  - intros _. exact D.
Qed.

(** *** The input queue *)

Lemma willReverse_true (curr next : Cell) :
  willReverse curr next = true <-> curr = opposite next.
Proof.
  unfold willReverse, opposite. rewrite andb_true_iff, !Z.eqb_eq.
  destruct curr as [a b], next as [c d]; cbn. split.
  - intros [H1 H2]. f_equal; lia.
  - intros E. injection E as -> ->. lia.
Qed.

Lemma eat_direction (g : Game) : direction (eat rnd g) = direction g.
Proof.
  unfold eat. cbn zeta.
  match goal with |- context [placeFood rnd ?h] => set (g1 := h) end.
  destruct (placeFood_fields g1) as (_ & Hd & _). rewrite Hd. reflexivity.
Qed.

(** After its consume step [tick] touches neither the direction nor the
    queue. *)
Lemma tick_direction_queue (g g' : Game) :
  tick rnd g = Ok g' ->
  direction g' = direction (consume g) /\
  inputQueue g' = inputQueue (consume g) \/ g' = g.
Proof.
  unfold tick. destruct (isPaused g || isGameOver g).
  { intros E; injection E as <-. right. reflexivity. }
  destruct (headOf (snake (consume g))) as [head|]; [| discriminate].
  cbn zeta. destruct (outOfGrid _).
  { intros E; injection E as <-. left. split; reflexivity. }
  destruct (occupies _ _).
  { intros E; injection E as <-. left. split; reflexivity. }
  change (food (set_snake ?b ?h)) with (food h).
  destruct (food (consume g)) as [f|]; [| discriminate].
  intros E; injection E as <-. left.
  match goal with |- context [checkWin ?h] =>
    destruct (checkWin_fields h) as (_ & Hd & Hq & _) end.
  rewrite Hd, Hq.
  destruct (sameCell _ f); cbn [negb].
  - rewrite eat_direction. destruct (eat_rest (set_snake
      (snake (consume g) ++ [advance head (direction (consume g))])
      (consume g))) as [Eq _].
    rewrite Eq. split; reflexivity.
  - split; reflexivity.
Qed.

(** A key of the direction table is neither a pause key nor the restart
    key, so the keydown listener hands it to [enqueueDirectionFromKey]. *)
Lemma keydown_directional (code : string) (next : Cell) (g : Game) :
  directionOfKey code = Some next ->
  keydown rnd code g = enqueueDirectionFromKey code g.
Proof.
  unfold directionOfKey, keydown. intros Hkey.
  repeat match type of Hkey with
         | context [(code =? ?k)%string] =>
             let E := fresh "E" in
             destruct (code =? k)%string eqn:E;
             [apply String.eqb_eq in E; subst code; reflexivity |]
         end.
  cbn in Hkey. discriminate.
Qed.

(** C6, as amended.  A directional key is stored only when the queue is
    empty and its direction is not the exact reverse of the current
    direction; otherwise the state is left as it was.  So a queue of at most one intent stays so,
    and every reachable queue holds at most one.  A key for the reverse of
    the current direction changes nothing, and with the queue empty the
    queue is still empty and the direction unchanged after the consume step
    of the next [tick], and after that [tick]. *)
Theorem enqueue_one_slot (code : string) (next : Cell) (g : Game) :
  directionOfKey code = Some next ->
  let g' := enqueueDirectionFromKey code g in
  keydown rnd code g = g' /\
  (inputQueue g = [] /\ direction g <> opposite next ->
   g' = set_inputQueue [next] g) /\
  (inputQueue g <> [] \/ direction g = opposite next -> g' = g) /\
  ((List.length (inputQueue g) <= 1)%nat ->
   (List.length (inputQueue g') <= 1)%nat) /\
  (reachable rnd g ->
   (List.length (inputQueue g) <= 1)%nat /\
   (List.length (inputQueue g') <= 1)%nat) /\
  (direction g = opposite next ->
   g' = g /\
   (inputQueue g = [] ->
    inputQueue (consume g') = [] /\
    direction (consume g') = direction g /\
    forall g2, tick rnd g' = Ok g2 ->
               inputQueue g2 = [] /\ direction g2 = direction g)).
Proof.
  intros Hkey g'.
  assert (Hstore : inputQueue g = [] /\ direction g <> opposite next ->
                   g' = set_inputQueue [next] g).
  { intros [Hq Hrev]. subst g'. unfold enqueueDirectionFromKey.
    rewrite Hkey, Hq. cbn.
    destruct (willReverse (direction g) next) eqn:E; [| reflexivity].
    apply willReverse_true in E. contradiction. }
  assert (Hdrop : inputQueue g <> [] \/ direction g = opposite next -> g' = g).
  { intros H. subst g'. unfold enqueueDirectionFromKey. rewrite Hkey.
    destruct (inputQueue g) as [|d rest]; cbn; [| reflexivity].
    destruct H as [H | H]; [congruence |].
    apply willReverse_true in H. rewrite H. reflexivity. }
  assert (Hlen : (List.length (inputQueue g) <= 1)%nat ->
                 (List.length (inputQueue g') <= 1)%nat).
  { intros Hle. destruct (inputQueue g) as [|d rest] eqn:Hq.
    - destruct (willReverse (direction g) next) eqn:E.
      + apply willReverse_true in E. rewrite (Hdrop (or_intror E)), Hq.
        exact Hle.
      + rewrite Hstore; [cbn; lia |]. split; [reflexivity |].
        intros E'. apply willReverse_true in E'. congruence.
    - rewrite Hdrop by (left; discriminate). rewrite Hq. exact Hle. }
  split; [exact (keydown_directional code next g Hkey) |].
  split; [exact Hstore |]. split; [exact Hdrop |]. split; [exact Hlen |].
  split.
  { intros R. pose proof (inv_queue g (reachable_invariant g R)) as Hle.
    split; [exact Hle | exact (Hlen Hle)]. }
  intros Hrev. pose proof (Hdrop (or_intror Hrev)) as Hsame.
  split; [exact Hsame |]. intros Hq. rewrite Hsame.
  rewrite (consume_empty g Hq). split; [exact Hq |]. split; [reflexivity |].
  intros g2 Hstep. destruct (tick_direction_queue g g2 Hstep) as [[Hd Hi] | ->].
  - rewrite (consume_empty g Hq) in Hd, Hi. rewrite Hi, Hd. auto.
  - auto.
Qed.

(** *** Restart *)


(** *** Food placement *)

(** C9, as amended.  [placeFood] draws at most 10,000 cells and sets the
    food to the last cell it drew, leaving the snake alone.  That cell is the
    first unoccupied one among the draws, and then the food is on no snake
    cell; when all 10,000 draws are occupied the food becomes the 10,000th
    draw, which is a snake cell. *)
Theorem placeFood_last_draw (g : Game) :
  let g' := placeFood rnd g in
  let draw (k : nat) := drawCell rnd (randomCalls g + 2 * k) in
  snake g' = snake g /\
  exists k : nat,
    Z.of_nat k < 10000 /\
    food g' = Some (draw k) /\
    randomCalls g' = (randomCalls g + 2 * k + 2)%nat /\
    (forall j : nat, (j < k)%nat -> In (draw j) (snake g)) /\
    ((exists j : nat, Z.of_nat j < 10000 /\ ~ In (draw j) (snake g)) ->
     ~ In (draw k) (snake g')) /\
    ((forall j : nat, Z.of_nat j < 10000 -> In (draw j) (snake g)) ->
     Z.of_nat k = 9999 /\ In (draw k) (snake g')).
Proof.
  cbn zeta. unfold placeFood.
  destruct (placeFoodLoop_spec (Z.to_nat 9999) (snake g) (randomCalls g))
    as (k & Hk & Hres & Hocc & Hlast).
  rewrite Hres. cbn [snake food randomCalls set_randomCalls set_food].
  split; [reflexivity |]. exists k.
  split; [lia |]. split; [reflexivity |]. split; [reflexivity |].
  split; [intros j Hj; apply occupies_true, Hocc, Hj |]. split.
  - intros (j & Hj & Hfree). destruct Hlast as [H | ->].
    + apply occupies_false, H.
    + destruct (Nat.lt_ge_cases j (Z.to_nat 9999)) as [Hlt | Hge].
      * exfalso. apply Hfree, occupies_true, Hocc, Hlt.
      * replace j with (Z.to_nat 9999) in Hfree by lia. exact Hfree.
  - intros Hall. destruct Hlast as [H | ->].
    + apply occupies_false in H. exfalso. apply H, Hall. lia.
    + split; [lia |]. apply Hall. lia.
Qed.

(** *** Numbers *)
















(** *** The driver *)

Lemma tick_keeps_playable (g g' : Game) :
  snake g <> [] -> food g <> None -> tick rnd g = Ok g' ->
  snake g' <> [] /\ food g' <> None.
Proof.
  intros Hs Hf. destruct (isPaused g || isGameOver g) eqn:Hrun.
  { unfold tick. rewrite Hrun. intros E; injection E as <-. auto. }
  apply orb_false_iff in Hrun. destruct Hrun as [Hp Ho].
  destruct (headOf (snake g)) as [head|] eqn:Hh;
    [| apply headOf_None in Hh; contradiction].
  rewrite (tick_running g head Hp Ho Hh). cbn zeta.
  destruct (outOfGrid _).
  { intros E; injection E as <-. cbn. rewrite snake_consume, food_consume.
    auto. }
  destruct (occupies _ _).
  { intros E; injection E as <-. cbn. rewrite snake_consume, food_consume.
    auto. }
  destruct (food g) as [f|] eqn:Hfood; [| discriminate].
  destruct (sameCell _ f); intros E; injection E as <-;
    match goal with |- context [checkWin ?h] =>
      destruct (checkWin_fields h) as (Ws & _ & _ & _ & _ & _ & _ & Wf & _) end;
    rewrite Ws, Wf.
  - match goal with |- context [eat rnd ?h] =>
      destruct (eat_fields h) as (Es & _); destruct (eat_rest h) as (_ & Ef) end.
    rewrite Es. split; [| exact Ef]. cbn. destruct (snake g); discriminate.
  - cbn. rewrite food_consume, Hfood. split; [| discriminate].
    destruct (snake g) as [|a [|b rest]]; cbn; congruence.
Qed.

(** What the loop of [animate] does on [fuel] rounds, for games on which
    [tick] does not throw (a property [P] that [tick] keeps): out of fuel
    means that the guard held every time; a result means that the guard
    held [n] times, [tick] ran [n] times, the interval was taken off [n]
    times, and then the guard failed. *)
Lemma stepLoop_run (P : Game -> Prop) :
  (forall g, P g -> exists g', tick rnd g = Ok g' /\ P g') ->
  forall (fuel : nat) (stepInterval acc : spec_float) (g : Game),
    P g ->
    match stepLoop rnd fuel stepInterval acc g with
    | None =>
        forall k : nat, (k <= fuel)%nat ->
          numGe (drained stepInterval acc k) stepInterval = true
    | Some TypeError => False
    | Some (Ok (acc', g')) =>
        exists n : nat,
          (n <= fuel)%nat /\ ticks rnd n g = Ok g' /\ P g' /\
          acc' = drained stepInterval acc n /\
          (forall k : nat, (k < n)%nat ->
             numGe (drained stepInterval acc k) stepInterval = true) /\
          numGe acc' stepInterval = false
    end.
Proof.
  intros Hstep fuel stepInterval.
  induction fuel as [|fuel IH]; intros acc g HP; cbn [stepLoop].
  - destruct (numGe acc stepInterval) eqn:E.
    + intros k Hk. replace k with 0%nat by lia. exact E.
    + exists 0%nat. split; [lia |]. split; [reflexivity |].
      split; [exact HP |]. split; [reflexivity |].
      split; [intros k Hk; lia | exact E].
  - destruct (numGe acc stepInterval) eqn:E.
    + destruct (Hstep g HP) as (g1 & Ht & HP1). rewrite Ht.
      specialize (IH (numSub acc stepInterval) g1 HP1).
      destruct (stepLoop rnd fuel stepInterval (numSub acc stepInterval) g1)
        as [[[acc' g']|]|].
      * destruct IH as (n & Hn & Hticks & HP' & Hacc & Hguard & Hexit).
        exists (S n). split; [lia |].
        split; [cbn [ticks]; rewrite Ht; exact Hticks |].
        split; [exact HP' |]. split; [exact Hacc |]. split; [| exact Hexit].
        intros [|k] Hk; [exact E | apply Hguard; lia].
      * exact IH.
      * intros [|k] Hk; [exact E | apply IH; lia].
    + exists 0%nat. split; [lia |]. split; [reflexivity |].
      split; [exact HP |]. split; [reflexivity |].
      split; [intros k Hk; lia | exact E].
Qed.

Lemma playable_step (g : Game) :
  snake g <> [] /\ food g <> None ->
  exists g', tick rnd g = Ok g' /\ (snake g' <> [] /\ food g' <> None).
Proof.
  intros [Hs Hf]. destruct (tick_total g Hs Hf) as [g' Ht].
  exists g'. split; [exact Ht |]. exact (tick_keeps_playable g g' Hs Hf Ht).
Qed.

Lemma invariant_step (g : Game) :
  invariant g -> exists g', tick rnd g = Ok g' /\ invariant g'.
Proof.
  intros I. destruct (tick_total g (inv_snake g I) (inv_food g I)) as [g' Ht].
  exists g'. split; [exact Ht |]. exact (tick_invariant g g' I Ht).
Qed.

(** One frame, as [stepLoop_run] describes its loop. *)
Lemma animate_run (P : Game -> Prop) :
  (forall g, P g -> exists g', tick rnd g = Ok g' /\ P g') ->
  forall (fuel : nat) (ts : spec_float) (t : Time) (g : Game),
    P g ->
    let stepInterval := numDiv (ofInt 1) (ofInt (movesPerSecond g)) in
    let acc := numAdd (accumulator t) (frameDelta ts (lastTime t)) in
    match animate rnd fuel ts t g with
    | None =>
        forall k : nat, (k <= fuel)%nat ->
          numGe (drained stepInterval acc k) stepInterval = true
    | Some TypeError => False
    | Some (Ok (t', g')) =>
        exists n : nat,
          (n <= fuel)%nat /\ ticks rnd n g = Ok g' /\ P g' /\
          lastTime t' = ts /\
          accumulator t' = drained stepInterval acc n /\
          (forall k : nat, (k < n)%nat ->
             numGe (drained stepInterval acc k) stepInterval = true) /\
          numGe (accumulator t') stepInterval = false
    end.
Proof.
  intros Hstep fuel ts t g HP stepInterval acc. unfold animate. cbn zeta.
  fold stepInterval acc.
  pose proof (stepLoop_run P Hstep fuel stepInterval acc g HP) as Hrun.
  destruct (stepLoop rnd fuel stepInterval acc g) as [[[acc' g']|]|].
  - destruct Hrun as (n & Hn & Hticks & HP' & Hacc & Hguard & Hexit).
    exists n. cbn [lastTime accumulator]. auto 8.
  - exact Hrun.
  - exact Hrun.
Qed.

Lemma ticks_invariant (n : nat) (g g' : Game) :
  invariant g -> ticks rnd n g = Ok g' -> invariant g'.
Proof.
  revert g. induction n as [|n IH]; intros g I; cbn [ticks].
  - intros E; injection E as <-. exact I.
  - destruct (tick rnd g) as [g1|] eqn:Ht; [| discriminate].
    apply IH. exact (tick_invariant g g1 I Ht).
Qed.


(** C10.  Within a frame every step is paid for with the interval
    [1 / movesPerSecond] of the game as it was when the frame began: the
    frame's [n] rounds each compare the accumulator with that interval and
    take that interval off, whatever speed the steps before them have set;
    the speed the frame ends with gives the interval of the next frame. *)
Theorem frame_interval_fixed (fuel : nat) (ts : spec_float) (t : Time)
        (g : Game) :
  invariant g ->
  let first := numDiv (ofInt 1) (ofInt (movesPerSecond g)) in
  let acc := numAdd (accumulator t) (frameDelta ts (lastTime t)) in
  match animate rnd fuel ts t g with
  | None =>
      forall k : nat, (k <= fuel)%nat ->
        numGe (drained first acc k) first = true
  | Some TypeError => False
  | Some (Ok (t', g')) =>
      (exists n : nat,
         (n <= fuel)%nat /\ ticks rnd n g = Ok g' /\
         accumulator t' = drained first acc n /\
         (forall (k : nat) (gk : Game),
            (k < n)%nat -> ticks rnd k g = Ok gk ->
            numGe (drained first acc k) first = true) /\
         numGe (accumulator t') first = false) /\
      forall (fuel2 : nat) (ts2 : spec_float),
        let second := numDiv (ofInt 1) (ofInt (movesPerSecond g')) in
        let acc2 := numAdd (accumulator t') (frameDelta ts2 (lastTime t')) in
        match animate rnd fuel2 ts2 t' g' with
        | None =>
            forall k : nat, (k <= fuel2)%nat ->
              numGe (drained second acc2 k) second = true
        | Some TypeError => False
        | Some (Ok (t2, g2)) =>
            exists n2 : nat,
              ticks rnd n2 g' = Ok g2 /\
              accumulator t2 = drained second acc2 n2
        end
  end.
Proof.
  intros I first acc.
  pose proof (animate_run invariant invariant_step fuel ts t g I) as Hrun.
  cbn zeta in Hrun. fold first acc in Hrun.
  destruct (animate rnd fuel ts t g) as [[[t' g']|]|];
    [| exact Hrun | exact Hrun].
  destruct Hrun as (n & Hn & Hticks & I' & _ & Hdrain & Hguard & Hexit).
  split.
  - exists n. split; [exact Hn |]. split; [exact Hticks |].
    split; [exact Hdrain |]. split; [| exact Hexit].
    intros k gk Hk _. exact (Hguard k Hk).
  - intros fuel2 ts2 second acc2.
    pose proof (animate_run invariant invariant_step fuel2 ts2 t' g' I')
      as Hrun2.
    cbn zeta in Hrun2. fold second acc2 in Hrun2.
    destruct (animate rnd fuel2 ts2 t' g') as [[[t2 g2]|]|];
      [| exact Hrun2 | exact Hrun2].
    destruct Hrun2 as (n2 & _ & Hticks2 & _ & _ & Hdrain2 & _).
    exists n2. auto.
Qed.

End Properties.

(** ** Instances and counterexamples *)


(** C9: with an oracle that keeps drawing the neck, the food eaten at
    (14,12) is re-placed on the snake cell (13,12): a call of [placeFood]
    that ends with the food on the snake, at a cell other than the one it
    had before. *)
Lemma placeFood_on_snake :
  let g := set_snake (startSnake ++ [mkCell 14 12])
                     (resetGame stubbornRandom (boot 0)) in
  let g' := placeFood stubbornRandom g in
  food g = Some (mkCell 14 12) /\
  food g' = Some (mkCell 13 12) /\
  In (mkCell 13 12) (snake g') /\
  Z.of_nat (randomCalls g') = Z.of_nat (randomCalls g) + 2 * 10000 /\
  food g' <> food g /\
  match tick stubbornRandom (resetGame stubbornRandom (boot 0)) with
  | Ok g1 => food g1 = Some (mkCell 13 12) /\ In (mkCell 13 12) (snake g1)
  | TypeError => False
  end.
Proof.
  cbn zeta. split; [vm_compute; reflexivity |].
  split; [vm_compute; reflexivity |].
  split; [vm_compute; auto |].
  split; [vm_compute; reflexivity |].
  split; [vm_compute; discriminate | vm_compute; auto 8].
Qed.

(** C1 on the snake (8,12)..(11,12) heading right with the food at (12,12)
    and three points scored; the first draw, (2,3), is free. *)
Lemma tick_eats_food_witness :
  let g := playing row8 (mkCell 1 0) (mkCell 12 12) 3 in
  match tick cyclingRandom g with
  | Ok g' => food g' = Some (mkCell 2 3) /\ randomCalls g' = 4%nat
  | TypeError => False
  end /\
  exists g',
    tick cyclingRandom g = Ok g' /\
    score g' = 3 + 1 /\
    highScore g' = Z.max 3 (score g') /\
    movesPerSecond g' = Z.min 14 (6 + score g' / 4) /\
    snake g' = row8 ++ [mkCell 12 12] /\
    hd_error (snake g') = Some (mkCell 8 12) /\
    List.length (snake g') = 5%nat /\
    food g' = food (placeFood cyclingRandom
                      (set_snake (row8 ++ [mkCell 12 12]) g)) /\
    exists k : nat,
      let draw (j : nat) := drawCell cyclingRandom (randomCalls g + 2 * j) in
      Z.of_nat k < 10000 /\
      food g' = Some (draw k) /\
      randomCalls g' = (randomCalls g + 2 * k + 2)%nat /\
      (forall j : nat, (j < k)%nat -> In (draw j) (snake g')) /\
      (~ In (draw k) (snake g') \/ Z.of_nat k = 9999) /\
      (~ In (draw k) (snake g') -> draw k <> mkCell 12 12).
Proof.
  split; [vm_compute; auto |].
  apply (tick_eats_food cyclingRandom
           (playing row8 (mkCell 1 0) (mkCell 12 12) 3) (mkCell 11 12)).
  - reflexivity.
  - reflexivity.
  - reflexivity.
  - cbn. unfold GRID_CELLS. lia.
  - cbn. unfold GRID_CELLS. lia.
  - cbn. intuition discriminate.
  - reflexivity.
Defined.

(** C2 on the first scenario of the spec, with the food at (3,3). *)
Lemma tick_moves_witness :
  let g := playing row8 (mkCell 1 0) (mkCell 3 3) 0 in
  exists g',
    tick cyclingRandom g = Ok g' /\
    snake g' = tl row8 ++ [mkCell 12 12] /\
    List.length (snake g') = 4%nat /\
    food g' = food g /\ score g' = score g /\
    (snake g = row8 -> direction g = mkCell 1 0 ->
     snake g' = [mkCell 9 12; mkCell 10 12; mkCell 11 12; mkCell 12 12] /\
     ~ In (mkCell 8 12) (snake g')).
Proof.
  apply (tick_moves cyclingRandom
           (playing row8 (mkCell 1 0) (mkCell 3 3) 0)
           (mkCell 11 12) (mkCell 3 3)).
  - reflexivity.
  - reflexivity.
  - reflexivity.
  - reflexivity.
  - cbn. unfold GRID_CELLS. lia.
  - cbn. unfold GRID_CELLS. lia.
  - cbn. intuition discriminate.
  - reflexivity.
  - discriminate.
Defined.

(** C3 on the coiled snake: the head at (0,1) moves up into the tail cell
    (0,0), which a legal move would have vacated. *)
Lemma tick_self_collision_witness :
  let g := playing coil (mkCell 0 (-1)) (mkCell 5 5) 0 in
  hd_error (snake g) = Some (mkCell 0 0) /\
  exists g',
    tick cyclingRandom g = Ok g' /\ g' = gameOver (consume g) /\
    isGameOver g' = true /\ snake g' = coil /\
    messageTitle g' = "Spillet er over"%string.
Proof.
  split; [reflexivity |].
  apply (tick_self_collision cyclingRandom
           (playing coil (mkCell 0 (-1)) (mkCell 5 5) 0) (mkCell 0 1)).
  - reflexivity.
  - reflexivity.
  - reflexivity.
  - right. reflexivity.
Defined.

(** C4 on the second scenario of the spec: head at (23,12), heading right. *)
Lemma tick_wall_collision_witness :
  let g := playing atWall (mkCell 1 0) (mkCell 5 5) 0 in
  exists g',
    tick cyclingRandom g = Ok g' /\ g' = gameOver (consume g) /\
    isGameOver g' = true /\ snake g' = atWall /\
    messageTitle g' = "Spillet er over"%string.
Proof.
  apply (tick_wall_collision cyclingRandom
           (playing atWall (mkCell 1 0) (mkCell 5 5) 0) (mkCell 23 12)).
  - reflexivity.
  - reflexivity.
  - reflexivity.
  - cbn. unfold GRID_CELLS. lia.
Defined.

(** C5 after a restart, a turn upwards and two steps. *)
Lemma reachable_snake_witness :
  let g := playing [mkCell 12 12; mkCell 13 12; mkCell 13 11; mkCell 13 10]
                   (mkCell 0 (-1)) (mkCell 0 1) 0 in
  ticks cyclingRandom 2
        (keydown cyclingRandom "ArrowUp" (resetGame cyclingRandom (boot 0)))
    = Ok g /\
  (forall c, In c (snake g) ->
             0 <= x c < GRID_CELLS /\ 0 <= y c < GRID_CELLS) /\
  (isGameOver g = false -> NoDup (snake g)).
Proof.
  split; [reflexivity |].
  apply (reachable_snake_on_grid_distinct cyclingRandom).
  apply (reach_step cyclingRandom Tick
           (playing [mkCell 11 12; mkCell 12 12; mkCell 13 12; mkCell 13 11]
                    (mkCell 0 (-1)) (mkCell 0 1) 0));
    [| reflexivity].
  apply (reach_step cyclingRandom Tick
           (keydown cyclingRandom "ArrowUp"
                    (resetGame cyclingRandom (boot 0))));
    [| reflexivity].
  apply (reach_step cyclingRandom (KeyDown "ArrowUp")
           (resetGame cyclingRandom (boot 0)));
    [| reflexivity].
  apply reach_restart.
Defined.

(** C6 right after a restart: the snake heads right and [ArrowLeft] asks
    for the reverse. *)
Lemma enqueue_one_slot_witness :
  let g := resetGame cyclingRandom (boot 0) in
  let g' := enqueueDirectionFromKey "ArrowLeft" g in
  let next := mkCell (-1) 0 in
  directionOfKey "ArrowLeft" = Some next /\
  direction g = opposite next /\
  keydown cyclingRandom "ArrowLeft" g = g' /\
  (inputQueue g = [] /\ direction g <> opposite next ->
   g' = set_inputQueue [next] g) /\
  (inputQueue g <> [] \/ direction g = opposite next -> g' = g) /\
  ((List.length (inputQueue g) <= 1)%nat ->
   (List.length (inputQueue g') <= 1)%nat) /\
  (reachable cyclingRandom g ->
   (List.length (inputQueue g) <= 1)%nat /\
   (List.length (inputQueue g') <= 1)%nat) /\
  (direction g = opposite next ->
   g' = g /\
   (inputQueue g = [] ->
    inputQueue (consume g') = [] /\
    direction (consume g') = direction g /\
    forall g2, tick cyclingRandom g' = Ok g2 ->
               inputQueue g2 = [] /\ direction g2 = direction g)).
Proof.
  split; [reflexivity |]. split; [reflexivity |].
  apply (enqueue_one_slot cyclingRandom "ArrowLeft" (mkCell (-1) 0)
           (resetGame cyclingRandom (boot 0))).
  reflexivity.
Defined.

(** C6: after a restart and [ArrowUp] the snake still heads right with the
    turn upwards queued; [ArrowLeft], the reverse of the direction, is
    dropped, yet the queue is not empty and the next consume step changes
    the direction. *)
Lemma reverse_key_with_pending_turn :
  let g := keydown cyclingRandom "ArrowUp"
             (resetGame cyclingRandom (boot 0)) in
  let g' := keydown cyclingRandom "ArrowLeft" g in
  direction g = mkCell 1 0 /\
  directionOfKey "ArrowLeft" = Some (opposite (direction g)) /\
  g' = g /\
  inputQueue g' = [mkCell 0 (-1)] /\
  direction (consume g') = mkCell 0 (-1) /\
  direction (consume g') <> direction g.
Proof.
  cbn zeta. split; [vm_compute; reflexivity |].
  split; [vm_compute; reflexivity |]. split; [vm_compute; reflexivity |].
  split; [vm_compute; reflexivity |]. split; [vm_compute; reflexivity |].
  vm_compute. discriminate.
Qed.

(** Rounding matters: at speed 10, from an empty accumulator, a frame at
    90 ms and one at 100 ms add up to just under 0.1 s on doubles, so
    neither runs a step. *)
Example short_frames_round_down :
  let g := playing row8 (mkCell 1 0) (mkCell 3 3) 16 in
  let t0 := {| lastTime := ofInt 0; accumulator := ofInt 0 |} in
  movesPerSecond g = 10 /\
  match animate cyclingRandom 1 (ofInt 90) t0 g with
  | Some (Ok (t1, g1)) =>
      g1 = g /\
      match animate cyclingRandom 1 (ofInt 100) t1 g1 with
      | Some (Ok (t2, g2)) =>
          g2 = g /\ numLt (accumulator t2) tenth = true
      | _ => False
      end
  | _ => False
  end.
Proof. vm_compute. auto. Qed.


(** C10 on the same frame: the first step eats and raises the speed from
    11 to 12, and the second step still costs 1/11. *)
Lemma frame_interval_fixed_witness :
  let g := playing row8 (mkCell 1 0) (mkCell 12 12) 23 in
  let ts := ofInt 100 in
  let first := numDiv (ofInt 1) (ofInt (movesPerSecond g)) in
  let acc := numAdd (accumulator leftover) (frameDelta ts (lastTime leftover)) in
  (movesPerSecond g = 11 /\
   match animate cyclingRandom 2 ts leftover g with
   | Some (Ok (t', g')) =>
       movesPerSecond g' = 12 /\
       accumulator t'
       = numSub (numSub acc (numDiv (ofInt 1) (ofInt 11)))
                (numDiv (ofInt 1) (ofInt 11)) /\
       accumulator t'
       <> numSub (numSub acc (numDiv (ofInt 1) (ofInt 11)))
                 (numDiv (ofInt 1) (ofInt 12))
   | _ => False
   end) /\
  match animate cyclingRandom 2 ts leftover g with
  | None =>
      forall k : nat, (k <= 2)%nat ->
        numGe (drained first acc k) first = true
  | Some TypeError => False
  | Some (Ok (t', g')) =>
      (exists n : nat,
         (n <= 2)%nat /\ ticks cyclingRandom n g = Ok g' /\
         accumulator t' = drained first acc n /\
         (forall (k : nat) (gk : Game),
            (k < n)%nat -> ticks cyclingRandom k g = Ok gk ->
            numGe (drained first acc k) first = true) /\
         numGe (accumulator t') first = false) /\
      forall (fuel2 : nat) (ts2 : spec_float),
        let second := numDiv (ofInt 1) (ofInt (movesPerSecond g')) in
        let acc2 := numAdd (accumulator t') (frameDelta ts2 (lastTime t')) in
        match animate cyclingRandom fuel2 ts2 t' g' with
        | None =>
            forall k : nat, (k <= fuel2)%nat ->
              numGe (drained second acc2 k) second = true
        | Some TypeError => False
        | Some (Ok (t2, g2)) =>
            exists n2 : nat,
              ticks cyclingRandom n2 g' = Ok g2 /\
              accumulator t2 = drained second acc2 n2
        end
  end.
Proof.
  split.
  { split; [reflexivity |]. vm_compute.
    split; [reflexivity |]. split; [reflexivity | discriminate]. }
  apply (frame_interval_fixed cyclingRandom 2 (ofInt 100) leftover
           (playing row8 (mkCell 1 0) (mkCell 12 12) 23)).
  constructor; cbn.
  - repeat constructor; cbn; unfold GRID_CELLS; lia.
  - repeat constructor; cbn; intuition discriminate.
  - lia.
  - discriminate.
  - discriminate.
  - lia.
  - vm_compute. split; discriminate.
Defined.

(** ** More properties of the game *)

Section MoreProperties.

Variable rnd : nat -> Z -> Z.

(** *** Results of the handlers, field by field *)

Lemma consume_explicit (g : Game) :
  consume g =
    mkGame (snake g) (direction (consume g)) (inputQueue (consume g))
           (food g) (isPaused g) (isGameOver g) (score g) (highScore g)
           (movesPerSecond g) (messageTitle g) (messageHidden g)
           (randomCalls g).
Proof.
  unfold consume. destruct (inputQueue g) eqn:E; cbn; [| reflexivity].
  destruct g; cbn in *. subst. reflexivity.
Qed.

Lemma eat_explicit (g : Game) :
  exists (c : Cell) (calls : nat),
    eat rnd g =
      mkGame (snake g) (direction g) (inputQueue g) (Some c) (isPaused g)
             (isGameOver g) (score g + 1)
             (Z.max (highScore g) (score g + 1))
             (Z.min MAX_SPEED (BASE_SPEED + (score g + 1) / 4))
             (messageTitle g) (messageHidden g) calls.
Proof.
  unfold eat, placeFood. cbn zeta.
  match goal with |- context [placeFoodLoop ?r ?n ?b ?k] =>
    destruct (placeFoodLoop r n b k) as [c calls] end.
  exists c, calls. reflexivity.
Qed.

(** The direction after the consume step: the queued intent if there is
    one, the old direction otherwise. *)
Lemma consume_direction (g : Game) :
  (inputQueue g = [] /\ direction (consume g) = direction g) \/
  (exists d rest, inputQueue g = d :: rest /\ direction (consume g) = d /\
                  inputQueue (consume g) = rest).
Proof.
  unfold consume. destruct (inputQueue g) as [|d rest] eqn:E.
  - left. auto.
  - right. exists d, rest. auto.
Qed.

Lemma directionOfKey_unit (code : string) (d : Cell) :
  directionOfKey code = Some d -> unitDirection d.
Proof.
  unfold directionOfKey, unitDirection.
  repeat match goal with
         | |- context [if ?b then _ else _] => destruct b
         end; intros E; try discriminate; injection E as <-; auto.
Qed.

Lemma unit_not_reverse (d : Cell) : unitDirection d -> willReverse d d = false.
Proof. intros [-> | [-> | [-> | ->]]]; reflexivity. Qed.

(** *** Paths *)

Lemma chained_tl (body : list Cell) : chained body -> chained (tl body).
Proof. destruct body as [|a [|b r]]; cbn; tauto. Qed.

Lemma chained_snoc (front : list Cell) (head newHead d : Cell) :
  chained (front ++ [head]) -> unitDirection d -> newHead = advance head d ->
  chained ((front ++ [head]) ++ [newHead]).
Proof.
  intros Hc Hd Hn. induction front as [|a front IH].
  - cbn. split; [exists d; auto | exact I].
  - destruct front as [|b front].
    + cbn in *. destruct Hc as [Hab _].
      split; [exact Hab |]. split; [exists d; auto | exact I].
    + cbn in Hc |- *. destruct Hc as [Hab Hrest].
      split; [exact Hab |]. apply IH. exact Hrest.
Qed.

Lemma chained_nth (body : list Cell) (i : nat) (a b : Cell) :
  chained body -> nth_error body i = Some a ->
  nth_error body (S i) = Some b ->
  exists d, unitDirection d /\ b = advance a d.
Proof.
  revert i. induction body as [|c body IH]; intros i Hc Ha Hb.
  - destruct i; discriminate.
  - destruct body as [|c' body]; [destruct i; discriminate |].
    destruct Hc as [Hlink Hrest]. destruct i as [|i].
    + cbn in Ha, Hb. injection Ha as <-. injection Hb as <-. exact Hlink.
    + exact (IH i Hrest Ha Hb).
Qed.

(** *** The invariant [coherent] *)

Lemma resetGame_coherent (g : Game) : coherent (resetGame rnd g).
Proof.
  unfold resetGame, placeFood. cbn zeta.
  match goal with |- context [placeFoodLoop ?r ?n ?b ?k] =>
    destruct (placeFoodLoop r n b k) as [c calls] end.
  rewrite startSnake_cells.
  constructor; cbn; try reflexivity; try discriminate.
  - left. reflexivity.
  - intros d [].
  - repeat split; exists (mkCell 1 0); (split; [left |]); reflexivity.
  - intros _ head neck rest E. injection E as <- <- _. reflexivity.
  - unfold GRID_CELLS. lia.
Qed.

Lemma togglePause_coherent (g : Game) : coherent g -> coherent (togglePause g).
Proof.
  intros C. pose proof C as [L S D Q Ch Lk Ex Hd Pt Ot Fu].
  unfold togglePause. destruct (isGameOver g) eqn:Ho; [exact C |].
  cbn. destruct (isPaused g) eqn:Hp; cbn;
    constructor; cbn; rewrite ?Ho; try assumption; try reflexivity;
    try discriminate.
  all: intros H; rewrite (Fu H) in Ho; discriminate.
Qed.

Lemma enqueue_coherent (code : string) (g : Game) :
  coherent g -> coherent (enqueueDirectionFromKey code g).
Proof.
  intros C. pose proof C as [L S D Q Ch Lk Ex Hd Pt Ot Fu].
  unfold enqueueDirectionFromKey.
  destruct (directionOfKey code) as [next|] eqn:Hk; [| exact C].
  destruct (inputQueue g) as [|d0 rest] eqn:Hq; cbn; [| exact C].
  destruct (willReverse (direction g) next) eqn:Hr; cbn; [exact C |].
  constructor; cbn; try assumption.
  intros d [<- | []]. split; [exact (directionOfKey_unit code _ Hk) | exact Hr].
Qed.

Lemma keydown_coherent (code : string) (g : Game) :
  coherent g -> coherent (keydown rnd code g).
Proof.
  intros C. unfold keydown.
  destruct ((code =? "Space")%string || (code =? "KeyP")%string).
  - apply togglePause_coherent, C.
  - destruct (code =? "KeyR")%string.
    + apply resetGame_coherent.
    + apply enqueue_coherent, C.
Qed.

Lemma consumed_direction (g : Game) :
  invariant g -> coherent g ->
  unitDirection (direction (consume g)) /\
  inputQueue (consume g) = [] /\
  willReverse (direction g) (direction (consume g)) = false.
Proof.
  intros I C.
  destruct (consume_direction g) as [[Hq Hd] | (d & rest & Hq & Hd & Hr)].
  - rewrite Hd, (consume_empty g Hq). split; [exact (coh_direction g C) |].
    split; [exact Hq | exact (unit_not_reverse _ (coh_direction g C))].
  - rewrite Hd, Hr. pose proof (inv_queue g I) as Hle. rewrite Hq in Hle.
    destruct rest; [| cbn in Hle; lia].
    destruct (coh_queue g C d) as [Hu Hrev]; [rewrite Hq; left; reflexivity |].
    auto.
Qed.

Lemma rev_snoc_head (body : list Cell) (head newHead h n : Cell)
      (rest : list Cell) :
  headOf body = Some head ->
  rev (body ++ [newHead]) = h :: n :: rest -> h = newHead /\ n = head.
Proof.
  intros Hh. destruct (headOf_Some body head Hh) as [front ->].
  rewrite !rev_app_distr. cbn. intros E. injection E as <- <- _. auto.
Qed.

Lemma rev_tl_snoc_head (body : list Cell) (head newHead h n : Cell)
      (rest : list Cell) :
  headOf body = Some head ->
  rev (tl (body ++ [newHead])) = h :: n :: rest -> h = newHead /\ n = head.
Proof.
  intros Hh. destruct (headOf_Some body head Hh) as [front ->].
  destruct front as [|a front]; cbn [app tl].
  - cbn. discriminate.
  - rewrite !rev_app_distr. cbn. intros E. injection E as <- <- _. auto.
Qed.

Lemma tick_coherent (g g' : Game) :
  invariant g -> coherent g -> tick rnd g = Ok g' -> coherent g'.
Proof.
  intros I C. destruct (isPaused g || isGameOver g) eqn:Hrun.
  { unfold tick. rewrite Hrun. intros E; injection E as <-. exact C. }
  apply orb_false_iff in Hrun. destruct Hrun as [Hp Ho].
  destruct (headOf (snake g)) as [head|] eqn:Hh.
  2:{ apply headOf_None in Hh. destruct (inv_snake g I Hh). }
  rewrite (tick_running rnd g head Hp Ho Hh). cbn zeta.
  destruct (consumed_direction g I C) as (Hd1 & Hq1 & Hrev1).
  pose proof C as [L S D Q Ch Lk Ex Hd Pt Ot Fu].
  assert (Hsmall : ~ GRID_CELLS * GRID_CELLS
                     <= Z.of_nat (List.length (snake g))).
  { intros H. rewrite (Fu H) in Ho. discriminate. }
  rewrite Hp, Ho in Hd. cbn in Hd.
  rewrite (consume_explicit g). cbn [direction]. rewrite Hq1, Hp, Ho, Hd.
  set (d1 := direction (consume g)) in *.
  set (newHead := advance head d1).
  assert (Hover : coherent (gameOver
            (mkGame (snake g) d1 [] (food g) false false (score g)
                    (highScore g) (movesPerSecond g) (messageTitle g) true
                    (randomCalls g)))).
  { constructor; cbn; try assumption; try reflexivity; try discriminate.
    - intros d [].
    - intros _.
      match goal with |- context [?a <=? ?b] =>
        destruct (Z.leb_spec a b) as [E | E] end;
        [exfalso; apply Hsmall; exact E | reflexivity]. }
  destruct (outOfGrid newHead); [intros E; injection E as <-; exact Hover |].
  destruct (occupies (snake g) newHead);
    [intros E; injection E as <-; exact Hover |].
  destruct (food g) as [f|]; [| discriminate].
  destruct (headOf_Some _ _ Hh) as [front Hfront].
  assert (Hchain : chained (snake g ++ [newHead])).
  { rewrite Hfront. apply (chained_snoc front head newHead d1);
      [rewrite <- Hfront; exact Ch | exact Hd1 | reflexivity]. }
  destruct (sameCell newHead f).
  - match goal with |- Ok (checkWin (eat rnd ?h)) = _ -> _ =>
      destruct (eat_explicit h) as (c & calls & E) end.
    rewrite E. cbn [snake direction inputQueue food isPaused isGameOver score
                    highScore movesPerSecond messageTitle messageHidden
                    randomCalls set_snake].
    intros E'; injection E' as <-. unfold checkWin. cbn [snake].
    assert (Hlen : Z.of_nat (List.length (snake g ++ [newHead]))
                   = START_LENGTH + (score g + 1)).
    { rewrite length_app. cbn [List.length]. lia. }
    destruct (Z.of_nat (List.length (snake g ++ [newHead]))
              >=? GRID_CELLS * GRID_CELLS) eqn:Hwin.
    + rewrite Z.geb_leb in Hwin. pose proof Hwin as Hwin'.
      apply Z.leb_le in Hwin'.
      constructor; cbn; try assumption; try reflexivity; try discriminate.
      * intros d [].
      * intros _.
        match goal with |- context [?a <=? ?b] =>
          destruct (Z.leb_spec a b) as [E0 | E0] end;
          [reflexivity | unfold GRID_CELLS in *; lia].
    + rewrite Z.geb_leb in Hwin. apply Z.leb_gt in Hwin.
      constructor; cbn; try assumption; try reflexivity; try discriminate.
      * intros d [].
      * intros _ h n rest Er.
        destruct (rev_snoc_head _ _ _ _ _ _ Hh Er) as [-> ->]. reflexivity.
      * intros H. unfold GRID_CELLS in *. lia.
  - cbn [negb]. intros E'; injection E' as <-. unfold checkWin.
    cbn [snake set_snake].
    assert (Hlen : Z.of_nat (List.length (tl (snake g ++ [newHead])))
                   = START_LENGTH + score g).
    { rewrite Hfront in *. rewrite length_app in L.
      destruct front; cbn [app tl List.length] in *;
        rewrite ?length_app; cbn [List.length]; lia. }
    destruct (Z.of_nat (List.length (tl (snake g ++ [newHead])))
              >=? GRID_CELLS * GRID_CELLS) eqn:Hwin.
    + rewrite Z.geb_leb in Hwin. apply Z.leb_le in Hwin.
      unfold GRID_CELLS in *. lia.
    + rewrite Z.geb_leb in Hwin. apply Z.leb_gt in Hwin.
      constructor; cbn; try assumption; try reflexivity; try discriminate.
      * intros d [].
      * apply chained_tl, Hchain.
      * intros _ h n rest Er.
        destruct (rev_tl_snoc_head _ _ _ _ _ _ Hh Er) as [-> ->]. reflexivity.
      * intros H. unfold GRID_CELLS in *. lia.
Qed.

Lemma reachable_coherent (g : Game) : reachable rnd g -> coherent g.
Proof.
  induction 1 as [g | e g g' R IH Hstep].
  - apply resetGame_coherent.
  - destruct e as [code | |]; cbn in Hstep.
    + injection Hstep as <-. apply keydown_coherent, IH.
    + injection Hstep as <-. apply resetGame_coherent.
    + exact (tick_coherent g g' (reachable_invariant rnd g R) IH Hstep).
Qed.

(** *** Length, score and speed *)

(** X1.  In every reachable state the snake has four cells plus one per
    point scored, and the speed is [min 14 (6 + score / 4)]. *)
Theorem length_and_speed_follow_score (g : Game) :
  reachable rnd g ->
  Z.of_nat (List.length (snake g)) = 4 + score g /\
  movesPerSecond g = Z.min 14 (6 + score g / 4).
Proof.
  intros R. destruct (reachable_coherent g R) as [L S _ _ _ _ _ _ _ _ _].
  split; [exact L | exact S].
Qed.

Lemma inGrid_gridCells (c : Cell) : inGrid c -> In c gridCells.
Proof.
  intros [[Hx0 Hx1] [Hy0 Hy1]]. unfold GRID_CELLS in *. unfold gridCells.
  apply in_flat_map. exists (Z.to_nat (x c)). split.
  - apply in_seq. unfold GRID_CELLS. lia.
  - apply in_map_iff. exists (Z.to_nat (y c)). split.
    + rewrite !Z2Nat.id by lia. destruct c; reflexivity.
    + apply in_seq. unfold GRID_CELLS. lia.
Qed.

Lemma gridCells_length : List.length gridCells = 576%nat.
Proof. reflexivity. Qed.

Lemma snake_length_le (g : Game) :
  invariant g -> (List.length (snake g) <= 576)%nat.
Proof.
  intros I. rewrite <- gridCells_length.
  apply NoDup_incl_length; [exact (inv_distinct g I) |].
  intros c Hc. apply inGrid_gridCells.
  pose proof (inv_grid g I) as G. rewrite Forall_forall in G. exact (G c Hc).
Qed.

(** X2.  In every reachable state the snake has between 4 and 576 cells,
    the score is between 0 and 572 and the speed between 6 and 14. *)
Theorem snake_fits_grid (g : Game) :
  reachable rnd g ->
  (4 <= List.length (snake g) <= 576)%nat /\
  0 <= score g <= 572 /\
  6 <= movesPerSecond g <= 14.
Proof.
  intros R. pose proof (reachable_invariant rnd g R) as I.
  pose proof (reachable_coherent g R) as C.
  pose proof (snake_length_le g I) as Hle.
  pose proof (coh_length g C) as L. pose proof (inv_score g I) as Hs.
  pose proof (inv_speed g I) as Hm.
  unfold START_LENGTH, BASE_SPEED, MAX_SPEED in *. lia.
Qed.

(** What a step does to the score and the high score. *)
Lemma tick_scores (g g' : Game) :
  tick rnd g = Ok g' ->
  (score g' = score g /\ highScore g' = highScore g) \/
  (score g' = score g + 1 /\
   highScore g' = Z.max (highScore g) (score g + 1)).
Proof.
  unfold tick. destruct (isPaused g || isGameOver g).
  { intros E; injection E as <-. left. auto. }
  destruct (headOf (snake (consume g))) as [head|]; [| discriminate].
  cbn zeta. destruct (outOfGrid _).
  { intros E; injection E as <-. cbn.
    rewrite score_consume, highScore_consume. left. auto. }
  destruct (occupies _ _).
  { intros E; injection E as <-. cbn.
    rewrite score_consume, highScore_consume. left. auto. }
  change (food (set_snake ?b ?h)) with (food h).
  destruct (food (consume g)) as [f|]; [| discriminate].
  intros E; injection E as <-.
  match goal with |- context [checkWin ?h] =>
    destruct (checkWin_fields h) as (_ & _ & _ & _ & Hs & Hh & _) end.
  rewrite Hs, Hh. destruct (sameCell _ f); cbn [negb].
  - match goal with |- context [eat rnd ?h] =>
      destruct (eat_fields rnd h) as (_ & _ & _ & Es & Eh & _) end.
    rewrite Es, Eh. cbn. rewrite score_consume, highScore_consume.
    right. auto.
  - cbn. rewrite score_consume, highScore_consume. left. auto.
Qed.

(** X3.  Between restarts neither the score nor the speed ever drops: a
    step of a reachable state adds at most one point and never slows the
    game down. *)
Theorem score_and_speed_never_drop (g g' : Game) :
  reachable rnd g -> tick rnd g = Ok g' ->
  score g <= score g' <= score g + 1 /\
  movesPerSecond g <= movesPerSecond g'.
Proof.
  intros R Ht.
  pose proof (reachable_coherent g R) as C.
  pose proof (tick_coherent g g' (reachable_invariant rnd g R) C Ht) as C'.
  rewrite (coh_speed g C), (coh_speed g' C').
  unfold MAX_SPEED, BASE_SPEED.
  destruct (tick_scores g g' Ht) as [[Hs _] | [Hs _]]; rewrite Hs.
  - lia.
  - pose proof (Z.div_le_mono (score g) (score g + 1) 4). lia.
Qed.

Lemma resetGame_scores (g : Game) :
  highScore (resetGame rnd g) = highScore g /\ score (resetGame rnd g) = 0.
Proof.
  unfold resetGame, placeFood. cbn zeta.
  match goal with |- context [placeFoodLoop ?r ?n ?b ?k] =>
    destruct (placeFoodLoop r n b k) as [c calls] end.
  cbn. auto.
Qed.

Lemma handle_highScore (e : Event) (g g' : Game) :
  handle rnd e g = Ok g' ->
  highScore g <= highScore g' /\
  (0 <= highScore g -> score g <= highScore g ->
   0 <= highScore g' /\ score g' <= highScore g').
Proof.
  destruct e as [code | |]; cbn [handle].
  - intros E; injection E as <-. unfold keydown.
    destruct ((code =? "Space")%string || (code =? "KeyP")%string).
    + unfold togglePause. destruct (isGameOver g); [lia |].
      cbn. destruct (negb (isPaused g)); cbn; lia.
    + destruct (code =? "KeyR")%string.
      * destruct (resetGame_scores g) as [-> ->]. lia.
      * unfold enqueueDirectionFromKey.
        destruct (directionOfKey code); [| lia].
        destruct (_ && _); cbn; lia.
  - intros E; injection E as <-. unfold clickRestart.
    destruct (resetGame_scores g) as [-> ->]. lia.
  - intros Ht. destruct (tick_scores g g' Ht) as [[-> ->] | [-> ->]]; lia.
Qed.

(** X4.  Over any run of key presses, restarts and steps the high score
    never decreases; and once it is non-negative and at least the score,
    it stays so. *)
Theorem high_score_never_drops (es : list Event) (g g' : Game) :
  run rnd es g = Ok g' ->
  highScore g <= highScore g' /\
  (0 <= highScore g -> score g <= highScore g ->
   0 <= highScore g' /\ score g' <= highScore g').
Proof.
  revert g. induction es as [|e es IH]; intros g; cbn [run].
  - intros E; injection E as <-. split; [lia | auto].
  - destruct (handle rnd e g) as [g1|] eqn:He; [| discriminate].
    intros Hrun. destruct (handle_highScore e g g1 He) as [H1 H2].
    destruct (IH g1 Hrun) as [H3 H4]. split; [lia |].
    intros Ha Hb. destruct (H2 Ha Hb) as [Hc Hd]. exact (H4 Hc Hd).
Qed.

(** *** Directions and the shape of the snake *)

Lemma not_reverse_opposite (a b : Cell) :
  willReverse a b = false -> b <> opposite a /\ a <> opposite b.
Proof.
  intros H. split; intros E.
  - assert (Hab : a = opposite b).
    { rewrite E. destruct a; unfold opposite; cbn. rewrite !Z.opp_involutive.
      reflexivity. }
    apply willReverse_true in Hab. congruence.
  - apply willReverse_true in E. congruence.
Qed.

(** X5.  A step never turns the snake right around: after a step of a
    reachable state the direction is one of the four unit steps and is not
    the reverse of the direction before the step. *)
Theorem no_reversal (g g' : Game) :
  reachable rnd g -> tick rnd g = Ok g' ->
  unitDirection (direction g') /\ direction g' <> opposite (direction g).
Proof.
  intros R Ht.
  pose proof (reachable_invariant rnd g R) as I.
  pose proof (reachable_coherent g R) as C.
  destruct (consumed_direction g I C) as (Hu & _ & Hrev).
  destruct (tick_direction_queue rnd g g' Ht) as [[Hd _] | ->].
  - rewrite Hd. split; [exact Hu |].
    exact (proj1 (not_reverse_opposite _ _ Hrev)).
  - split; [exact (coh_direction g C) |].
    exact (proj1 (not_reverse_opposite _ _
                    (unit_not_reverse _ (coh_direction g C)))).
Qed.

(** X6.  In a reachable running state the cell the head is about to enter
    is neither the head cell nor the neck cell just behind it. *)
Theorem never_into_neck (g : Game) (head neck : Cell) (rest : list Cell) :
  reachable rnd g -> isGameOver g = false ->
  rev (snake g) = head :: neck :: rest ->
  let newHead := advance head (direction (consume g)) in
  newHead <> neck /\ newHead <> head.
Proof.
  intros R Ho Hrev newHead.
  pose proof (reachable_invariant rnd g R) as I.
  pose proof (reachable_coherent g R) as C.
  destruct (consumed_direction g I C) as (Hu & _ & Hnr).
  pose proof (coh_link g C Ho head neck rest Hrev) as Hlink.
  subst newHead. split; intros E.
  - assert (Hw : willReverse (direction g) (direction (consume g)) = true).
    { rewrite Hlink in E. unfold advance in E. destruct neck as [nx ny].
      cbn in E. injection E as Ex Ey. unfold willReverse.
      apply andb_true_iff. rewrite !Z.eqb_eq. lia. }
    congruence.
  - unfold advance in E. destruct head as [hx hy]. cbn in E.
    injection E as Ex Ey.
    destruct Hu as [Hd | [Hd | [Hd | Hd]]]; rewrite Hd in Ex, Ey; cbn in *;
      lia.
Qed.

(** X7.  In every reachable state the snake is a path on the grid: each
    cell is one unit step from the cell before it, and while the game is
    not over the step from the neck to the head is the current direction. *)
Theorem snake_is_path (g : Game) :
  reachable rnd g ->
  (forall (i : nat) (a b : Cell),
     nth_error (snake g) i = Some a -> nth_error (snake g) (S i) = Some b ->
     exists d, unitDirection d /\ b = advance a d) /\
  (isGameOver g = false ->
   forall (head neck : Cell) (rest : list Cell),
     rev (snake g) = head :: neck :: rest ->
     head = advance neck (direction g)).
Proof.
  intros R. pose proof (reachable_coherent g R) as C. split.
  - intros i a b. exact (chained_nth (snake g) i a b (coh_chain g C)).
  - exact (coh_link g C).
Qed.

(** *** The centre message and the session *)

(** X8.  In every reachable state the centre message is hidden exactly
    while the game is running; a paused game is not over and shows "Pause";
    a game that is over shows "Du vant!" when the snake fills the grid and
    "Spillet er over" otherwise; and a snake that fills the grid ends the
    game. *)
Theorem message_tells_state (g : Game) :
  reachable rnd g ->
  messageHidden g = negb (isPaused g || isGameOver g) /\
  (isPaused g = true ->
   isGameOver g = false /\ messageTitle g = "Pause"%string) /\
  (isGameOver g = true ->
   messageTitle g = if (List.length (snake g) =? 576)%nat
                    then "Du vant!"%string else "Spillet er over"%string) /\
  (List.length (snake g) = 576%nat -> isGameOver g = true).
Proof.
  intros R. pose proof (reachable_coherent g R) as C.
  pose proof (snake_length_le g (reachable_invariant rnd g R)) as Hle.
  split; [exact (coh_hidden g C) |]. split; [| split].
  - intros Hp. split; [| exact (coh_pause_title g C Hp)].
    pose proof (coh_exclusive g C) as Ex. rewrite Hp in Ex. exact Ex.
  - intros Ho. rewrite (coh_over_title g C Ho). unfold GRID_CELLS.
    destruct (Z.leb_spec (24 * 24) (Z.of_nat (List.length (snake g))));
      destruct (Nat.eqb_spec (List.length (snake g)) 576);
      try reflexivity; lia.
  - intros Hfull. apply (coh_full g C). unfold GRID_CELLS. lia.
Qed.

Lemma set_inputQueue_same (g : Game) : set_inputQueue (inputQueue g) g = g.
Proof. destruct g; reflexivity. Qed.

(** X9.  Once the game is over, nothing but a restart changes anything
    except the input queue: a step or a pause key leaves the state exactly
    as it was, and any other key either does so too or is a direction key
    that finds the queue empty and becomes its only entry. *)
Theorem game_over_is_final (e : Event) (g g' : Game) :
  isGameOver g = true -> handle rnd e g = Ok g' ->
  e <> ClickRestart -> e <> KeyDown "KeyR" ->
  (e = Tick \/ e = KeyDown "Space" \/ e = KeyDown "KeyP" -> g' = g) /\
  (g' = g \/
   exists (code : string) (d : Cell),
     e = KeyDown code /\ directionOfKey code = Some d /\
     willReverse (direction g) d = false /\
     inputQueue g = [] /\ g' = set_inputQueue [d] g) /\
  isGameOver g' = true.
Proof.
  intros Ho He Hc Hk.
  assert (Hres : g' = g \/
            exists (code : string) (d : Cell),
              e = KeyDown code /\ directionOfKey code = Some d /\
              willReverse (direction g) d = false /\
              inputQueue g = [] /\ g' = set_inputQueue [d] g).
  { destruct e as [code | |]; cbn [handle] in He.
    - injection He as <-. unfold keydown.
      destruct ((code =? "Space")%string || (code =? "KeyP")%string).
      + left. unfold togglePause. rewrite Ho. reflexivity.
      + destruct (code =? "KeyR")%string eqn:Er.
        * apply String.eqb_eq in Er. subst code. contradiction.
        * unfold enqueueDirectionFromKey.
          destruct (directionOfKey code) as [d|] eqn:Hd; [| left; reflexivity].
          destruct (inputQueue g) as [|q rest] eqn:Hq; cbn;
            [| left; reflexivity].
          destruct (willReverse (direction g) d) eqn:Hw; cbn;
            [left; reflexivity |].
          right. exists code, d. auto.
    - contradiction.
    - left. unfold tick in He. rewrite Ho, orb_true_r in He.
      injection He as <-. reflexivity. }
  split; [| split; [exact Hres |]].
  - intros [-> | [-> | ->]]; cbn [handle] in He.
    + unfold tick in He. rewrite Ho, orb_true_r in He.
      injection He as <-. reflexivity.
    + injection He as <-. change (keydown rnd "Space" g) with (togglePause g).
      unfold togglePause. rewrite Ho. reflexivity.
    + injection He as <-. change (keydown rnd "KeyP" g) with (togglePause g).
      unfold togglePause. rewrite Ho. reflexivity.
  - destruct Hres as [-> | (code & d & _ & _ & _ & _ & ->)]; exact Ho.
Qed.

(** X10.  Pausing and resuming gives the game back as it was: in a game
    that is not over and whose message is hidden exactly when it is not
    paused, two presses of a pause key restore every field, except that
    the hidden or shown message now reads "Pause". *)
Theorem pause_round_trip (g : Game) :
  isGameOver g = false -> messageHidden g = negb (isPaused g) ->
  keydown rnd "Space" (keydown rnd "Space" g)
    = mkGame (snake g) (direction g) (inputQueue g) (food g) (isPaused g)
             (isGameOver g) (score g) (highScore g) (movesPerSecond g)
             "Pause" (messageHidden g) (randomCalls g) /\
  keydown rnd "KeyP" g = keydown rnd "Space" g /\
  isPaused (keydown rnd "Space" g) = negb (isPaused g).
Proof.
  intros Ho Hh. change (keydown rnd "Space") with togglePause.
  change (keydown rnd "KeyP") with togglePause.
  unfold togglePause. rewrite Ho. cbn. rewrite Hh.
  destruct (isPaused g); cbn; rewrite Ho; cbn; rewrite ?Ho;
    unfold showCenterMessage, hideCenterMessage, set_isPaused; cbn;
    rewrite ?Ho; auto.
Qed.

(** X11.  A key press other than the restart key never moves the snake or
    touches the food, the score, the high score, the speed, the direction
    or the random source; and a key that is no pause, restart or direction
    key changes nothing at all. *)
Theorem keys_leave_game_alone (code : string) (g : Game) :
  code <> "KeyR"%string ->
  let g' := keydown rnd code g in
  (snake g' = snake g /\ food g' = food g /\ score g' = score g /\
   highScore g' = highScore g /\ movesPerSecond g' = movesPerSecond g /\
   direction g' = direction g /\ isGameOver g' = isGameOver g /\
   randomCalls g' = randomCalls g) /\
  (code <> "Space"%string -> code <> "KeyP"%string ->
   directionOfKey code = None -> g' = g).
Proof.
  intros Hr g'. subst g'. unfold keydown.
  destruct (code =? "Space")%string eqn:Es.
  { cbn [orb]. split.
    - unfold togglePause. destruct (isGameOver g) eqn:Ho; [auto 10 |].
      cbn. destruct (negb (isPaused g)); cbn; auto 10.
    - apply String.eqb_eq in Es. intros H. contradiction. }
  destruct (code =? "KeyP")%string eqn:Ep.
  { cbn [orb]. split.
    - unfold togglePause. destruct (isGameOver g) eqn:Ho; [auto 10 |].
      cbn. destruct (negb (isPaused g)); cbn; auto 10.
    - apply String.eqb_eq in Ep. intros _ H. contradiction. }
  cbn [orb]. destruct (code =? "KeyR")%string eqn:Er.
  { apply String.eqb_eq in Er. contradiction. }
  unfold enqueueDirectionFromKey. split.
  - destruct (directionOfKey code); [| auto 10].
    destruct (_ && _); cbn; auto 10.
  - intros _ _ ->. reflexivity.
Qed.

(** *** Exceptions *)

Lemma handle_total (e : Event) (g : Game) :
  reachable rnd g -> exists g', handle rnd e g = Ok g'.
Proof.
  intros R. destruct e as [code | |]; cbn [handle];
    [eexists; reflexivity | eexists; reflexivity |].
  pose proof (reachable_invariant rnd g R) as I.
  exact (tick_total rnd g (inv_snake g I) (inv_food g I)).
Qed.

(** X12.  A step taken before the first restart throws (the snake is still
    empty), and so does a step on a snake without food; but from a restart
    on, no run of key presses, restarts and steps ever throws. *)
Theorem no_exception_after_restart (es : list Event) (g : Game) :
  (forall hs, tick rnd (boot hs) = TypeError) /\
  (isPaused g = false -> isGameOver g = false ->
   snake g = [] -> tick rnd g = TypeError) /\
  (reachable rnd g ->
   exists g', run rnd es g = Ok g' /\ reachable rnd g').
Proof.
  split; [reflexivity |]. split.
  - intros Hp Ho Hs. unfold tick. rewrite Hp, Ho. cbn [orb].
    rewrite snake_consume, Hs. reflexivity.
  - revert g. induction es as [|e es IH]; intros g R; cbn [run].
    + exists g. auto.
    + destruct (handle_total e g R) as [g1 He]. rewrite He.
      apply IH. exact (reach_step rnd e g g1 R He).
Qed.

(** *** Random draws and the food *)

(** X13.  With an oracle that behaves as [Math.floor(Math.random() * k)]
    does, [randomInt min max] lies between [min] and [max], both
    included. *)
Theorem randomInt_in_range (min max : Z) (n : nat) :
  inRange rnd -> min <= max -> min <= randomInt rnd min max n <= max.
Proof.
  intros Hr Hle. unfold randomInt.
  pose proof (Hr n (max - min + 1)). lia.
Qed.

Lemma drawCell_inGrid (n : nat) : inRange rnd -> inGrid (drawCell rnd n).
Proof.
  intros Hr. unfold inGrid, drawCell, randomInt, GRID_CELLS. cbn.
  pose proof (Hr n 24). pose proof (Hr (S n) 24). lia.
Qed.

Lemma placeFood_inGrid (g : Game) :
  inRange rnd -> exists f, food (placeFood rnd g) = Some f /\ inGrid f.
Proof.
  intros Hr.
  destruct (placeFood_fields rnd g) as (_ & _ & _ & _ & _ & _ & _ & _ & Hf).
  destruct (placeFoodLoop_spec rnd (Z.to_nat 9999) (snake g) (randomCalls g))
    as (k & _ & Hres & _).
  rewrite Hf, Hres. eexists. split; [reflexivity |].
  exact (drawCell_inGrid _ Hr).
Qed.

Lemma tick_food (g g' : Game) :
  tick rnd g = Ok g' ->
  food g' = food g \/ exists h, food g' = food (placeFood rnd h).
Proof.
  unfold tick. destruct (isPaused g || isGameOver g).
  { intros E; injection E as <-. left. reflexivity. }
  destruct (headOf (snake (consume g))) as [head|]; [| discriminate].
  cbn zeta. destruct (outOfGrid _).
  { intros E; injection E as <-. left. cbn. apply food_consume. }
  destruct (occupies _ _).
  { intros E; injection E as <-. left. cbn. apply food_consume. }
  change (food (set_snake ?b ?h)) with (food h).
  destruct (food (consume g)) as [f|] eqn:Hf; [| discriminate].
  intros E; injection E as <-.
  match goal with |- context [checkWin ?h] =>
    destruct (checkWin_fields h) as (_ & _ & _ & _ & _ & _ & _ & Wf & _) end.
  rewrite Wf. destruct (sameCell _ f); cbn [negb].
  - right. match goal with |- context [eat rnd ?h] =>
      destruct (eat_fields rnd h) as (_ & _ & _ & _ & _ & _ & Ef);
      exists h end.
    exact Ef.
  - left. cbn. apply food_consume.
Qed.

Lemma resetGame_food_inGrid (g : Game) :
  inRange rnd -> exists f, food (resetGame rnd g) = Some f /\ inGrid f.
Proof.
  intros Hr. unfold resetGame. cbn zeta.
  match goal with |- context [placeFood rnd ?h] => set (g1 := h) end.
  destruct (placeFood_inGrid g1 Hr) as (f & Hf & Hg).
  exists f. split; [| exact Hg]. cbn [food hideCenterMessage]. exact Hf.
Qed.

(** X14.  With an oracle in range, the food of every reachable state is a
    cell of the grid. *)
Theorem food_on_grid (g : Game) :
  inRange rnd -> reachable rnd g ->
  exists f, food g = Some f /\
            0 <= x f < GRID_CELLS /\ 0 <= y f < GRID_CELLS.
Proof.
  intros Hr R. change (exists f, food g = Some f /\ inGrid f).
  induction R as [g | e g g' R IH Hstep].
  - exact (resetGame_food_inGrid _ Hr).
  - destruct e as [code | |]; cbn [handle] in Hstep.
    + injection Hstep as <-. unfold keydown.
      destruct ((code =? "Space")%string || (code =? "KeyP")%string).
      * unfold togglePause. destruct (isGameOver g); [exact IH |].
        cbn. destruct (negb (isPaused g)); exact IH.
      * destruct (code =? "KeyR")%string.
        -- exact (resetGame_food_inGrid _ Hr).
        -- unfold enqueueDirectionFromKey.
           destruct (directionOfKey code); [| exact IH].
           destruct (_ && _); exact IH.
    + injection Hstep as <-. unfold clickRestart.
      exact (resetGame_food_inGrid _ Hr).
    + destruct (tick_food g g' Hstep) as [-> | [h ->]];
        [exact IH | exact (placeFood_inGrid _ Hr)].
Qed.

(** *** More on the driver *)

Lemma ticks_frozen (n : nat) (g : Game) :
  isPaused g || isGameOver g = true -> ticks rnd n g = Ok g.
Proof.
  intros H. induction n as [|n IH]; cbn [ticks]; [reflexivity |].
  unfold tick. rewrite H. exact IH.
Qed.

Lemma frozen_step (g0 g : Game) :
  isPaused g0 || isGameOver g0 = true /\ g = g0 ->
  exists g', tick rnd g = Ok g' /\
             (isPaused g0 || isGameOver g0 = true /\ g' = g0).
Proof.
  intros [H ->]. exists g0. split; [| auto]. unfold tick. rewrite H.
  reflexivity.
Qed.

(** X15.  While the game is paused or over a frame never throws and never
    changes the game: whatever the fuel, the frame is either still looping
    (the guard held on every round so far) or returns the same game, with
    the accumulator drained by some number of intervals until it no longer
    reaches the interval; so the time spent paused is taken off the
    accumulator, not replayed as steps on resume. *)
Theorem frozen_frame_keeps_game (fuel : nat) (ts : spec_float) (t : Time)
        (g : Game) :
  isPaused g || isGameOver g = true ->
  let stepInterval := numDiv (ofInt 1) (ofInt (movesPerSecond g)) in
  let acc := numAdd (accumulator t) (frameDelta ts (lastTime t)) in
  match animate rnd fuel ts t g with
  | None =>
      forall k : nat, (k <= fuel)%nat ->
        numGe (drained stepInterval acc k) stepInterval = true
  | Some TypeError => False
  | Some (Ok (t', g')) =>
      g' = g /\ lastTime t' = ts /\
      exists n : nat,
        (n <= fuel)%nat /\
        accumulator t' = drained stepInterval acc n /\
        numGe (accumulator t') stepInterval = false
  end.
Proof.
  intros Hfrozen stepInterval acc.
  pose proof (animate_run rnd
                (fun h => isPaused g || isGameOver g = true /\ h = g)
                (frozen_step g) fuel ts t g (conj Hfrozen eq_refl)) as Hrun.
  cbn zeta in Hrun. fold stepInterval acc in Hrun.
  destruct (animate rnd fuel ts t g) as [[[t' g']|]|];
    [| exact Hrun | exact Hrun].
  destruct Hrun as (n & Hn & _ & [_ Hsame] & Hlast & Hdrain & _ & Hexit).
  split; [exact Hsame |]. split; [exact Hlast |].
  exists n. auto.
Qed.

(** *** The view *)

Lemma HALF_value : (HALF == 12)%Q.
Proof. reflexivity. Qed.

(** X17.  [cellToWorld] puts the cells on a unit lattice at height 1/2:
    a grid cell lands, with half a cell of margin on each side, inside the
    24 x 24 ground plane centred at the origin; a step of the snake moves
    the point by the same step; and different cells get different
    points. *)
Theorem cellToWorld_layout (c : Cell) :
  let p := cellToWorld (x c) (y c) in
  (inGrid c ->
   (-12 <= vx p - (1 # 2) /\ vx p + (1 # 2) <= 12)%Q /\
   (-12 <= vz p - (1 # 2) /\ vz p + (1 # 2) <= 12)%Q) /\
  vy p = (1 # 2)%Q /\
  (forall d : Cell,
     let q := cellToWorld (x (advance c d)) (y (advance c d)) in
     (vx q == vx p + inject_Z (x d))%Q /\
     (vz q == vz p + inject_Z (y d))%Q) /\
  (forall c' : Cell,
     (vx (cellToWorld (x c') (y c')) == vx p)%Q ->
     (vz (cellToWorld (x c') (y c')) == vz p)%Q -> c' = c).
Proof.
  cbn zeta. unfold cellToWorld, CELL_SIZE. cbn [vx vy vz].
  pose proof HALF_value as Hh. split; [| split; [reflexivity | split]].
  - intros [[Hx0 Hx1] [Hy0 Hy1]]. unfold GRID_CELLS in *.
    assert (0 <= inject_Z (x c) /\ inject_Z (x c) <= 23)%Q as [? ?].
    { change 0%Q with (inject_Z 0). change 23%Q with (inject_Z 23).
      rewrite <- !Zle_Qle. lia. }
    assert (0 <= inject_Z (y c) /\ inject_Z (y c) <= 23)%Q as [? ?].
    { change 0%Q with (inject_Z 0). change 23%Q with (inject_Z 23).
      rewrite <- !Zle_Qle. lia. }
    repeat split; lra.
  - intros d. unfold advance. cbn [x y]. rewrite !inject_Z_plus. split; lra.
  - intros c' Ex Ez.
    assert (Hx : (inject_Z (x c') == inject_Z (x c))%Q) by lra.
    assert (Hy : (inject_Z (y c') == inject_Z (y c))%Q) by lra.
    apply (proj1 (inject_Z_injective _ _)) in Hx.
    apply (proj1 (inject_Z_injective _ _)) in Hy.
    destruct c, c'; cbn in *. congruence.
Qed.

Lemma gradient_unit (index total : nat) :
  (index < total)%nat -> (0 <= gradient index total <= 1)%Q.
Proof.
  intros Hlt. unfold gradient. destruct (Nat.leb_spec total 1); [lra |].
  assert (Hpos : (0 < inject_Z (Z.of_nat total - 1))%Q).
  { change 0%Q with (inject_Z 0). rewrite <- Zlt_Qlt. lia. }
  split.
  - apply Qle_shift_div_l; [exact Hpos |]. rewrite Qmult_0_l.
    change 0%Q with (inject_Z 0). rewrite <- Zle_Qle. lia.
  - apply Qle_shift_div_r; [exact Hpos |]. rewrite Qmult_1_l.
    rewrite <- Zle_Qle. lia.
Qed.

(** X18.  On exact rationals the colour [pickBlueByIndex] picks for a
    segment of the snake stays in the ranges its comments give: hue between
    210 and 220 degrees, saturation between 0.5 and 0.65, lightness between
    0.38 and 0.56; a snake of one cell gets the values of [t = 0]. *)
Theorem pickBlue_ranges (index total : nat) :
  (index < total)%nat ->
  exists h s l : Q,
    pickBlueByIndex index total = HSL h s l /\
    (210 <= h * 360 <= 220)%Q /\
    ((1 # 2) <= s <= (65 # 100))%Q /\
    ((38 # 100) <= l <= (56 # 100))%Q /\
    (total = 1%nat ->
     (h * 360 == 220)%Q /\ (s == 65 # 100)%Q /\ (l == 56 # 100)%Q).
Proof.
  intros Hlt. unfold pickBlueByIndex. cbn zeta.
  pose proof (gradient_unit index total Hlt) as [Ht0 Ht1].
  eexists _, _, _. split; [reflexivity |].
  set (t := gradient index total) in *.
  assert (Hh : ((210 + 10 * (1 - t)) / 360 * 360 == 210 + 10 * (1 - t))%Q)
    by (field; discriminate).
  rewrite Hh. split; [lra |]. split; [lra |]. split; [lra |].
  intros Hone. assert (Hz : (t == 0)%Q).
  { subst t total. unfold gradient. cbn. reflexivity. }
  repeat split; lra.
Qed.

Lemma placeMeshes_length (body : list Cell) (i : nat) (meshes : list Mesh) :
  List.length (placeMeshes body i meshes) = List.length meshes.
Proof.
  revert i. induction meshes as [|m meshes IH]; intros i; cbn;
    [reflexivity | rewrite IH; reflexivity].
Qed.

Lemma placeMeshes_nth (body : list Cell) (i j : nat) (meshes : list Mesh) :
  nth_error (placeMeshes body i meshes) j
  = option_map (placeMesh body (i + j)) (nth_error meshes j).
Proof.
  revert i j. induction meshes as [|m meshes IH]; intros i j.
  - destruct j; reflexivity.
  - destruct j as [|j]; cbn.
    + rewrite Nat.add_0_r. reflexivity.
    + rewrite IH. replace (S i + j)%nat with (i + S j)%nat by lia.
      reflexivity.
Qed.

Lemma pool_length (meshes : list Mesh) (body : list Cell) :
  List.length
    (meshes ++ repeat newMesh (List.length body - List.length meshes))
  = Nat.max (List.length meshes) (List.length body).
Proof. rewrite length_app, repeat_length. lia. Qed.

(** The placed mesh of an index on the snake does not depend on the pool. *)
Lemma placeMeshes_within (body : list Cell) (i : nat) (ms1 ms2 : list Mesh) :
  List.length ms1 = List.length ms2 ->
  (i + List.length ms1 <= List.length body)%nat ->
  placeMeshes body i ms1 = placeMeshes body i ms2.
Proof.
  revert i ms2. induction ms1 as [|m1 ms1 IH]; intros i ms2 Hlen Hle.
  - destruct ms2; [reflexivity | discriminate].
  - destruct ms2 as [|m2 ms2]; [discriminate |]. cbn in *.
    f_equal.
    + unfold placeMesh. destruct (nth_error body i) eqn:E; [reflexivity |].
      apply nth_error_None in E. lia.
    + apply IH; lia.
Qed.

Lemma sync_absorbs_pool (meshes : list Mesh) (body : list Cell) :
  (List.length meshes <= List.length body)%nat ->
  syncMeshesToSnake meshes body = syncMeshesToSnake [] body.
Proof.
  intros Hle. unfold syncMeshesToSnake. cbn zeta.
  apply placeMeshes_within.
  - rewrite !pool_length. cbn. lia.
  - rewrite pool_length. lia.
Qed.

Lemma sync_length (meshes : list Mesh) (body : list Cell) :
  List.length (syncMeshesToSnake meshes body)
  = Nat.max (List.length meshes) (List.length body).
Proof.
  unfold syncMeshesToSnake. cbn zeta.
  rewrite placeMeshes_length. apply pool_length.
Qed.

(** The mesh that [syncMeshesToSnake] leaves at the index of a snake
    cell. *)
Lemma sync_on_snake (meshes : list Mesh) (body : list Cell) (i : nat)
      (seg : Cell) :
  nth_error body i = Some seg ->
  exists m, nth_error (syncMeshesToSnake meshes body) i = Some m /\
            visible m = true /\
            position m = cellToWorld (x seg) (y seg) /\
            color m = pickBlueByIndex i (List.length body) /\
            scale m = if Nat.eqb (S i) (List.length body)
                      then (106 # 100)%Q else 1%Q.
Proof.
  intros Hseg. unfold syncMeshesToSnake. cbn zeta.
  rewrite placeMeshes_nth. cbn [Nat.add].
  assert (Hi : (i < List.length body)%nat)
    by (apply nth_error_Some; congruence).
  destruct (nth_error (meshes ++ repeat newMesh
              (List.length body - List.length meshes)) i) as [m0|] eqn:E.
  2:{ apply nth_error_None in E. rewrite pool_length in E. lia. }
  cbn [option_map]. unfold placeMesh. rewrite Hseg.
  eexists. split; [reflexivity |]. cbn [visible position color scale].
  split; [reflexivity |]. split; [reflexivity |]. split; [reflexivity |].
  destruct (Nat.eqb_spec i (List.length body - 1));
    destruct (Nat.eqb_spec (S i) (List.length body));
    try reflexivity; lia.
Qed.

(** X19.  [syncMeshesToSnake] never shrinks the pool: afterwards the pool
    is as long as the longer of the old pool and the snake; the mesh of
    each snake cell is visible, sits at the world position of its cell,
    has the gradient colour of its index and is scaled 1.06 for the head
    and 1 otherwise; and every mesh beyond the snake is hidden. *)
Theorem sync_places_and_hides (meshes : list Mesh) (body : list Cell) :
  let pool := syncMeshesToSnake meshes body in
  List.length pool = Nat.max (List.length meshes) (List.length body) /\
  (forall (i : nat) (seg : Cell),
     nth_error body i = Some seg ->
     exists m, nth_error pool i = Some m /\ visible m = true /\
               position m = cellToWorld (x seg) (y seg) /\
               color m = pickBlueByIndex i (List.length body) /\
               scale m = if Nat.eqb (S i) (List.length body)
                         then (106 # 100)%Q else 1%Q) /\
  (forall (i : nat) (m : Mesh),
     (List.length body <= i)%nat -> nth_error pool i = Some m ->
     visible m = false).
Proof.
  cbn zeta. split; [apply sync_length |]. split.
  - intros i seg Hseg. exact (sync_on_snake meshes body i seg Hseg).
  - intros i m Hle. unfold syncMeshesToSnake. cbn zeta.
    rewrite placeMeshes_nth. cbn [Nat.add].
    destruct (nth_error _ i) as [m0|]; [| discriminate].
    cbn [option_map]. unfold placeMesh.
    destruct (nth_error body i) eqn:E.
    + assert (i < List.length body)%nat by (apply nth_error_Some; congruence).
      lia.
    + intros Em; injection Em as <-. reflexivity.
Qed.

(** Where [tick] calls [syncMeshesToSnake] the snake has not shrunk, and
    where it returns early the snake is untouched. *)
Lemma tick_snake_cases (g g' : Game) :
  tick rnd g = Ok g' ->
  if tickSyncs g
  then (List.length (snake g) <= List.length (snake g'))%nat
  else snake g' = snake g.
Proof.
  unfold tick, tickSyncs. destruct (isPaused g || isGameOver g).
  { intros E; injection E as <-. reflexivity. }
  cbn [negb andb].
  destruct (headOf (snake (consume g))) as [head|] eqn:Hh; [| discriminate].
  cbn zeta. destruct (outOfGrid _).
  { intros E; injection E as <-. cbn. apply snake_consume. }
  destruct (occupies _ _).
  { intros E; injection E as <-. cbn. apply snake_consume. }
  cbn [negb andb].
  change (food (set_snake ?b ?h)) with (food h).
  destruct (food (consume g)) as [f|]; [| discriminate].
  intros E; injection E as <-.
  match goal with |- context [checkWin ?h] =>
    destruct (checkWin_fields h) as (Ws & _) end.
  rewrite Ws. rewrite snake_consume in *.
  destruct (sameCell _ f); cbn [negb].
  - match goal with |- context [eat rnd ?h] =>
      destruct (eat_fields rnd h) as (Es & _) end.
    rewrite Es. cbn. rewrite length_app. lia.
  - cbn. destruct (snake g) as [|a r]; [discriminate |].
    cbn. rewrite length_app. cbn. lia.
Qed.

(** The pool is always the one [syncMeshesToSnake] builds from scratch. *)
Lemma view_synced (w : Game * list Mesh) :
  reachableView rnd w -> snd w = syncMeshesToSnake [] (snake (fst w)).
Proof.
  assert (Hreset : forall w0 : Game * list Mesh,
            snd (resetGameView rnd w0)
            = syncMeshesToSnake [] (snake (fst (resetGameView rnd w0)))).
  { intros w0. unfold resetGameView. cbn zeta.
    generalize (resetGame rnd (fst w0)). intros restarted. reflexivity. }
  induction 1 as [w | e w w' R IH Hstep]; [apply Hreset |].
  destruct w as [g0 ms0]. cbn [fst snd] in IH.
  destruct e as [code | |]; cbn [handleView fst snd] in Hstep.
  - destruct ((code =? "Space")%string || (code =? "KeyP")%string).
    + injection Hstep as <-. cbn [fst snd]. rewrite IH. f_equal.
      unfold togglePause. destruct (isGameOver g0); [reflexivity |].
      cbn. destruct (negb (isPaused g0)); reflexivity.
    + destruct (code =? "KeyR")%string.
      * injection Hstep as <-. apply Hreset.
      * injection Hstep as <-. cbn [fst snd]. rewrite IH. f_equal.
        unfold enqueueDirectionFromKey.
        destruct (directionOfKey code); [| reflexivity].
        destruct (_ && _); reflexivity.
  - injection Hstep as <-. apply Hreset.
  - unfold tickView in Hstep. cbn [fst snd] in Hstep.
    destruct (tick rnd g0) as [g1|] eqn:Ht; [| discriminate].
    injection Hstep as <-. cbn [fst snd].
    pose proof (tick_snake_cases g0 g1 Ht) as Hcase.
    destruct (tickSyncs g0).
    + apply sync_absorbs_pool. rewrite IH, sync_length. cbn [List.length].
      lia.
    + rewrite Hcase. exact IH.
Qed.

(** X20.  The pool always shows the snake: in every state of game and pool
    reachable from a restart, the pool is what [syncMeshesToSnake] makes
    of an empty pool for the current snake, so it has exactly one mesh per
    snake cell and all of them are visible. *)
Theorem view_shows_snake (g : Game) (meshes : list Mesh) :
  reachableView rnd (g, meshes) ->
  meshes = syncMeshesToSnake [] (snake g) /\
  List.length meshes = List.length (snake g) /\
  Forall (fun m => visible m = true) meshes.
Proof.
  intros R. pose proof (view_synced (g, meshes) R) as Hsync.
  cbn [fst snd] in Hsync.
  split; [exact Hsync |].
  assert (Hlen : List.length meshes = List.length (snake g)).
  { rewrite Hsync, sync_length. cbn [List.length]. lia. }
  split; [exact Hlen |].
  apply Forall_forall. intros m Hm.
  destruct (In_nth_error _ _ Hm) as [i Hi].
  assert (Hlt : (i < List.length (snake g))%nat).
  { rewrite <- Hlen. apply nth_error_Some. congruence. }
  destruct (nth_error (snake g) i) as [seg|] eqn:Hseg;
    [| apply nth_error_None in Hseg; lia].
  destruct (sync_on_snake [] (snake g) i seg Hseg) as (m' & Hm' & Hv & _).
  rewrite <- Hsync, Hi in Hm'. injection Hm' as <-. exact Hv.
Qed.

End MoreProperties.

(** ** Instances of the further properties *)

(** X1 right after a restart. *)
Lemma length_and_speed_follow_score_witness :
  let g := resetGame cyclingRandom (boot 0) in
  Z.of_nat (List.length (snake g)) = 4 + score g /\
  movesPerSecond g = Z.min 14 (6 + score g / 4).
Proof.
  apply (length_and_speed_follow_score cyclingRandom).
  apply reach_restart.
Defined.

(** X2 right after a restart. *)
Lemma snake_fits_grid_witness :
  let g := resetGame cyclingRandom (boot 0) in
  (4 <= List.length (snake g) <= 576)%nat /\
  0 <= score g <= 572 /\
  6 <= movesPerSecond g <= 14.
Proof.
  apply (snake_fits_grid cyclingRandom).
  apply reach_restart.
Defined.

(** X3 on the first step after a restart. *)
Lemma score_and_speed_never_drop_witness :
  let g := resetGame cyclingRandom (boot 0) in
  let g' := playing [mkCell 11 12; mkCell 12 12; mkCell 13 12; mkCell 14 12]
                    (mkCell 1 0) (mkCell 0 1) 0 in
  tick cyclingRandom g = Ok g' /\
  score g <= score g' <= score g + 1 /\
  movesPerSecond g <= movesPerSecond g'.
Proof.
  split; [reflexivity |].
  apply (score_and_speed_never_drop cyclingRandom
           (resetGame cyclingRandom (boot 0))).
  - apply reach_restart.
  - reflexivity.
Defined.

(** X4 on a run that eats once, from a stored high score of 7. *)
Lemma high_score_never_drops_witness :
  let g := playing row8 (mkCell 1 0) (mkCell 12 12) 7 in
  let es := [Tick; KeyDown "ArrowUp"; Tick; ClickRestart] in
  exists g',
    run cyclingRandom es g = Ok g' /\
    highScore g <= highScore g' /\
    (0 <= highScore g -> score g <= highScore g ->
     0 <= highScore g' /\ score g' <= highScore g').
Proof.
  cbn zeta. eexists. split; [vm_compute; reflexivity |].
  apply (high_score_never_drops cyclingRandom
           [Tick; KeyDown "ArrowUp"; Tick; ClickRestart]
           (playing row8 (mkCell 1 0) (mkCell 12 12) 7)).
  vm_compute. reflexivity.
Defined.

(** X5 on a step that turns upwards. *)
Lemma no_reversal_witness :
  let g := keydown cyclingRandom "ArrowUp"
             (resetGame cyclingRandom (boot 0)) in
  let g' := playing [mkCell 11 12; mkCell 12 12; mkCell 13 12; mkCell 13 11]
                    (mkCell 0 (-1)) (mkCell 0 1) 0 in
  tick cyclingRandom g = Ok g' /\
  unitDirection (direction g') /\ direction g' <> opposite (direction g).
Proof.
  split; [reflexivity |].
  apply (no_reversal cyclingRandom
           (keydown cyclingRandom "ArrowUp"
              (resetGame cyclingRandom (boot 0)))).
  - apply (reach_step cyclingRandom (KeyDown "ArrowUp")
             (resetGame cyclingRandom (boot 0))); [| reflexivity].
    apply reach_restart.
  - reflexivity.
Defined.

(** X6 right after a restart: head (13,12), neck (12,12). *)
Lemma never_into_neck_witness :
  let g := resetGame cyclingRandom (boot 0) in
  let newHead := advance (mkCell 13 12) (direction (consume g)) in
  newHead <> mkCell 12 12 /\ newHead <> mkCell 13 12.
Proof.
  apply (never_into_neck cyclingRandom (resetGame cyclingRandom (boot 0))
           (mkCell 13 12) (mkCell 12 12) [mkCell 11 12; mkCell 10 12]).
  - apply reach_restart.
  - reflexivity.
  - reflexivity.
Defined.

(** X7 right after a restart. *)
Lemma snake_is_path_witness :
  let g := resetGame cyclingRandom (boot 0) in
  (forall (i : nat) (a b : Cell),
     nth_error (snake g) i = Some a -> nth_error (snake g) (S i) = Some b ->
     exists d, unitDirection d /\ b = advance a d) /\
  (isGameOver g = false ->
   forall (head neck : Cell) (rest : list Cell),
     rev (snake g) = head :: neck :: rest ->
     head = advance neck (direction g)).
Proof.
  apply (snake_is_path cyclingRandom).
  apply reach_restart.
Defined.

(** X8 on a paused game. *)
Lemma message_tells_state_witness :
  let g := keydown cyclingRandom "Space" (resetGame cyclingRandom (boot 0)) in
  isPaused g = true /\
  messageHidden g = negb (isPaused g || isGameOver g) /\
  (isPaused g = true ->
   isGameOver g = false /\ messageTitle g = "Pause"%string) /\
  (isGameOver g = true ->
   messageTitle g = if (List.length (snake g) =? 576)%nat
                    then "Du vant!"%string else "Spillet er over"%string) /\
  (List.length (snake g) = 576%nat -> isGameOver g = true).
Proof.
  split; [reflexivity |].
  apply (message_tells_state cyclingRandom).
  apply (reach_step cyclingRandom (KeyDown "Space")
           (resetGame cyclingRandom (boot 0))); [| reflexivity].
  apply reach_restart.
Defined.

(** X9 on a direction key pressed after a crash into the wall. *)
Lemma game_over_is_final_witness :
  let g := gameOver (playing atWall (mkCell 1 0) (mkCell 5 5) 0) in
  let e := KeyDown "ArrowUp" in
  let g' := enqueueDirectionFromKey "ArrowUp" g in
  inputQueue g' = [mkCell 0 (-1)] /\
  (e = Tick \/ e = KeyDown "Space" \/ e = KeyDown "KeyP" -> g' = g) /\
  (g' = g \/
   exists (code : string) (d : Cell),
     e = KeyDown code /\ directionOfKey code = Some d /\
     willReverse (direction g) d = false /\
     inputQueue g = [] /\ g' = set_inputQueue [d] g) /\
  isGameOver g' = true.
Proof.
  split; [reflexivity |].
  apply (game_over_is_final cyclingRandom (KeyDown "ArrowUp")
           (gameOver (playing atWall (mkCell 1 0) (mkCell 5 5) 0))).
  - reflexivity.
  - reflexivity.
  - discriminate.
  - discriminate.
Defined.

(** X10 on a running game. *)
Lemma pause_round_trip_witness :
  let g := playing row8 (mkCell 1 0) (mkCell 3 3) 0 in
  keydown cyclingRandom "Space" (keydown cyclingRandom "Space" g)
    = mkGame (snake g) (direction g) (inputQueue g) (food g) (isPaused g)
             (isGameOver g) (score g) (highScore g) (movesPerSecond g)
             "Pause" (messageHidden g) (randomCalls g) /\
  keydown cyclingRandom "KeyP" g = keydown cyclingRandom "Space" g /\
  isPaused (keydown cyclingRandom "Space" g) = negb (isPaused g).
Proof.
  apply (pause_round_trip cyclingRandom
           (playing row8 (mkCell 1 0) (mkCell 3 3) 0)).
  - reflexivity.
  - reflexivity.
Defined.

(** X11 on a key the game does not know. *)
Lemma keys_leave_game_alone_witness :
  let g := playing row8 (mkCell 1 0) (mkCell 3 3) 0 in
  let g' := keydown cyclingRandom "KeyQ" g in
  (snake g' = snake g /\ food g' = food g /\ score g' = score g /\
   highScore g' = highScore g /\ movesPerSecond g' = movesPerSecond g /\
   direction g' = direction g /\ isGameOver g' = isGameOver g /\
   randomCalls g' = randomCalls g) /\
  ("KeyQ" <> "Space" -> "KeyQ" <> "KeyP" ->
   directionOfKey "KeyQ" = None -> g' = g)%string.
Proof.
  apply (keys_leave_game_alone cyclingRandom "KeyQ"
           (playing row8 (mkCell 1 0) (mkCell 3 3) 0)).
  discriminate.
Defined.

(** X13 on a die: [randomInt 1 6]. *)
Lemma randomInt_in_range_witness :
  inRange cyclingRandom /\
  1 <= randomInt cyclingRandom 1 6 10 <= 6.
Proof.
  assert (Hr : inRange cyclingRandom).
  { intros n k Hk. unfold cyclingRandom. apply Z.mod_pos_bound. exact Hk. }
  split; [exact Hr |].
  apply (randomInt_in_range cyclingRandom 1 6 10 Hr). lia.
Defined.

(** X14 right after a restart. *)
Lemma food_on_grid_witness :
  let g := resetGame cyclingRandom (boot 0) in
  inRange cyclingRandom /\
  exists f, food g = Some f /\
            0 <= x f < GRID_CELLS /\ 0 <= y f < GRID_CELLS.
Proof.
  assert (Hr : inRange cyclingRandom).
  { intros n k Hk. unfold cyclingRandom. apply Z.mod_pos_bound. exact Hk. }
  split; [exact Hr |].
  apply (food_on_grid cyclingRandom (resetGame cyclingRandom (boot 0)) Hr).
  apply reach_restart.
Defined.

(** X15 on a paused game, a frame 100 ms after the last. *)
Lemma frozen_frame_keeps_game_witness :
  let g := togglePause (playing row8 (mkCell 1 0) (mkCell 3 3) 0) in
  let ts := ofInt 100 in
  let stepInterval := numDiv (ofInt 1) (ofInt (movesPerSecond g)) in
  let acc := numAdd (accumulator leftover) (frameDelta ts (lastTime leftover)) in
  (isPaused g = true /\
   match animate cyclingRandom 1 ts leftover g with
   | Some (Ok (t', g')) => accumulator t' = numSub acc stepInterval
   | _ => False
   end) /\
  match animate cyclingRandom 1 ts leftover g with
  | None =>
      forall k : nat, (k <= 1)%nat ->
        numGe (drained stepInterval acc k) stepInterval = true
  | Some TypeError => False
  | Some (Ok (t', g')) =>
      g' = g /\ lastTime t' = ts /\
      exists n : nat,
        (n <= 1)%nat /\
        accumulator t' = drained stepInterval acc n /\
        numGe (accumulator t') stepInterval = false
  end.
Proof.
  split; [split; vm_compute; reflexivity |].
  apply (frozen_frame_keeps_game cyclingRandom 1 (ofInt 100) leftover
           (togglePause (playing row8 (mkCell 1 0) (mkCell 3 3) 0))).
  reflexivity.
Defined.

(** X18 on the third of five segments. *)
Lemma pickBlue_ranges_witness :
  exists h s l : Q,
    pickBlueByIndex 2 5 = HSL h s l /\
    (210 <= h * 360 <= 220)%Q /\
    ((1 # 2) <= s <= (65 # 100))%Q /\
    ((38 # 100) <= l <= (56 # 100))%Q /\
    (5%nat = 1%nat ->
     (h * 360 == 220)%Q /\ (s == 65 # 100)%Q /\ (l == 56 # 100)%Q).
Proof.
  apply (pickBlue_ranges 2 5). lia.
Defined.

(** X20 right after a restart with an empty pool. *)
Lemma view_shows_snake_witness :
  let w := resetGameView cyclingRandom (boot 0, []) in
  snd w = syncMeshesToSnake [] (snake (fst w)) /\
  List.length (snd w) = List.length (snake (fst w)) /\
  Forall (fun m => visible m = true) (snd w).
Proof.
  apply (view_shows_snake cyclingRandom
           (fst (resetGameView cyclingRandom (boot 0, [])))
           (snd (resetGameView cyclingRandom (boot 0, [])))).
  exact (reachView_restart cyclingRandom (boot 0, [])).
Defined.
